(** * Chess-Game: the engine of [src/lib/chess-engine.ts]

    A shallow embedding of the [ChessEngine] class: the static evaluator,
    the win-probability estimate, the alpha-beta search and the session
    operations built on the chess.js [Chess] object.

    chess.js is an external library.  It enters the development as an
    interface ([RulesEngine]) whose operations are the methods the engine
    calls; the facts about chess.js that a result depends on are stated
    as hypotheses of the section in which the result is proved, and a
    small concrete rules engine ([Tree]) shows that they can be met. *)

From Stdlib Require Import ZArith Lia Rbase Rfunctions Exp_prop Rpower R_Ifp Lra.
From stdpp Require Import base list strings sorting.

Set Warnings "-register-all".
#[local] Open Scope Z_scope.

(** ** Data model *)

(** chess.js [Color]: ['w'] and ['b']. *)
Inductive Color := White | Black.

(** chess.js [PieceSymbol]: ['p' 'n' 'b' 'r' 'q' 'k']. *)
Inductive PieceSymbol := Pawn | Knight | Bishop | Rook | Queen | King.

(** chess.js [Square]: the string ["a1"] to ["h8"]. *)
Definition Square := string.

Inductive Difficulty := easy | medium | hard.
Definition PlayerColor := Color.

(** The fields of a verbose chess.js [Move] that the engine reads. *)
Record Move := {
  color : Color;
  from : Square;
  to : Square;
  piece : PieceSymbol;
  captured : option PieceSymbol;
  promotion : option PieceSymbol;
  san : string
}.

(** The object literal handed to [game.move]. *)
Record MoveInput := {
  in_from : Square;
  in_to : Square;
  in_promotion : option PieceSymbol
}.

(** An entry of [game.board()]; [None] is JavaScript's [null]. *)
Record Piece := { type : PieceSymbol; pcolor : Color }.
Definition Board := list (list (option Piece)).

Definition Color_eqb (a b : Color) : bool :=
  match a, b with White, White | Black, Black => true | _, _ => false end.

Definition PieceSymbol_eqb (a b : PieceSymbol) : bool :=
  match a, b with
  | Pawn, Pawn | Knight, Knight | Bishop, Bishop
  | Rook, Rook | Queen, Queen | King, King => true
  | _, _ => false
  end.

(** ** JavaScript numbers met by the search

    Every score is a sum of integer piece values, or one of the two
    infinities that [evaluateBoard] returns at checkmate.  The search only
    compares scores and takes [Math.max] and [Math.min] of them, so no
    arithmetic is ever done on an infinity. *)
Inductive number := NegInfinity | Finite (z : Z) | Infinity.

Module Num.

Definition leb (a b : number) : bool :=
  match a, b with
  | NegInfinity, _ => true
  | _, Infinity => true
  | Finite x, Finite y => x <=? y
  | _, _ => false
  end.

Definition ltb (a b : number) : bool := negb (leb b a).
Definition gtb (a b : number) : bool := ltb b a.

(** [Math.max] and [Math.min]. *)
Definition max (a b : number) : number := if leb a b then b else a.
Definition min (a b : number) : number := if leb a b then a else b.

(** The value [x] confined to the window from [a] to [b]. *)
Definition clamp (a b x : number) : number := max a (min b x).

End Num.

(** ** The rules engine: the chess.js [Chess] object

    [Game] is the state of one [Chess] object.  [move] either returns the
    move it made or throws; both leave a state behind. *)
Inductive MoveResult (G : Type) :=
| Moved (m : Move) (g' : G)
| Thrown (g' : G).
Arguments Moved {G} m g'.
Arguments Thrown {G} g'.

Class RulesEngine := {
  Game : Type;
  fen : Game -> string;
  turn : Game -> Color;
  isCheck : Game -> bool;
  isCheckmate : Game -> bool;
  isStalemate : Game -> bool;
  isDraw : Game -> bool;
  isGameOver : Game -> bool;
  board : Game -> Board;
  history : Game -> list Move;              (* history({ verbose: true }) *)
  moves : Game -> list Move;                (* moves({ verbose: true }) *)
  move : Game -> MoveInput -> MoveResult Game;
  undo : Game -> option Move * Game
}.

(** A [Move] object passed to [game.move] is read as its from, to and
    promotion fields. *)
Definition inputOfMove (m : Move) : MoveInput :=
  {| in_from := from m; in_to := to m; in_promotion := promotion m |}.

(** chess.js accepts an input when a legal move has its from and to
    squares and, if that move promotes, its promotion piece. *)
Definition option_piece_eqb (a b : option PieceSymbol) : bool :=
  match a, b with
  | Some x, Some y => PieceSymbol_eqb x y
  | None, None => true
  | _, _ => false
  end.

Definition matchesInput (i : MoveInput) (m : Move) : bool :=
  String.eqb (in_from i) (from m) && String.eqb (in_to i) (to m)
  && (match promotion m with
      | None => true
      | Some _ => option_piece_eqb (in_promotion i) (promotion m)
      end).

(** ** Evaluation tables *)

Definition PIECE_VALUES (t : PieceSymbol) : Z :=
  match t with
  | Pawn => 100
  | Knight => 320
  | Bishop => 330
  | Rook => 500
  | Queen => 900
  | King => 20000
  end.

Definition PAWN_TABLE : list (list Z) :=
  [ [0; 0; 0; 0; 0; 0; 0; 0];
    [50; 50; 50; 50; 50; 50; 50; 50];
    [10; 10; 20; 30; 30; 20; 10; 10];
    [5; 5; 10; 25; 25; 10; 5; 5];
    [0; 0; 0; 20; 20; 0; 0; 0];
    [5; -5; -10; 0; 0; -10; -5; 5];
    [5; 10; 10; -20; -20; 10; 10; 5];
    [0; 0; 0; 0; 0; 0; 0; 0] ].

Definition KNIGHT_TABLE : list (list Z) :=
  [ [-50; -40; -30; -30; -30; -30; -40; -50];
    [-40; -20; 0; 0; 0; 0; -20; -40];
    [-30; 0; 10; 15; 15; 10; 0; -30];
    [-30; 5; 15; 20; 20; 15; 5; -30];
    [-30; 0; 15; 20; 20; 15; 0; -30];
    [-30; 5; 10; 15; 15; 10; 5; -30];
    [-40; -20; 0; 5; 5; 0; -20; -40];
    [-50; -40; -30; -30; -30; -30; -40; -50] ].

(** [t[row][col]] for [row] and [col] from 0 to 7, where every table and
    every chess.js board has an entry. *)
Definition at2 {A} (d : A) (t : list (list A)) (row col : nat) : A :=
  default d (t !! row ≫= (.!! col)).

(** The body of the inner loop of [evaluateBoard] for one piece. *)
Definition pieceScore (row col : nat) (p : Piece) : Z :=
  let value := PIECE_VALUES (type p) in
  let value :=
    match type p with
    | Pawn =>
        value + (match pcolor p with
                 | White => at2 0 PAWN_TABLE row col
                 | Black => at2 0 PAWN_TABLE (7 - row) col
                 end)
    | Knight =>
        value + (match pcolor p with
                 | White => at2 0 KNIGHT_TABLE row col
                 | Black => at2 0 KNIGHT_TABLE (7 - row) col
                 end)
    | _ => value
    end in
  match pcolor p with White => value | Black => - value end.

(** The two nested [for] loops of [evaluateBoard]. *)
Definition boardScore (b : Board) : Z :=
  foldl (fun score row =>
    foldl (fun score col =>
      match at2 None b row col with
      | Some p => score + pieceScore row col p
      | None => score
      end) score (seq 0 8)) 0 (seq 0 8).

(** ** The engine object *)

Section Engine.
Context {RE : RulesEngine}.

Record ChessEngine := {
  game : Game;
  difficulty : Difficulty;
  playerColor : PlayerColor
}.

Definition withGame (e : ChessEngine) (g : Game) : ChessEngine :=
  {| game := g; difficulty := difficulty e; playerColor := playerColor e |}.

(** *** Methods as state transformers

    A method runs on the engine object and either returns a value or
    throws; in both cases it leaves an engine object behind. *)
Inductive Res (A : Type) :=
| Ok (a : A) (e : ChessEngine)
| Err (e : ChessEngine).
#[global] Arguments Ok {A} a e.
#[global] Arguments Err {A} e.

Definition M (A : Type) : Type := ChessEngine -> Res A.

Definition ret {A} (a : A) : M A := fun e => Ok a e.

Definition bind {A B} (c : M A) (k : A -> M B) : M B :=
  fun e => match c e with
           | Ok a e' => k a e'
           | Err e' => Err e'
           end.

(** [try { c } catch { h }]. *)
Definition tryCatch {A} (c : M A) (h : M A) : M A :=
  fun e => match c e with
           | Ok a e' => Ok a e'
           | Err e' => h e'
           end.

(** [this.game.move(i)] and [this.game.undo()]. *)
Definition game_move (i : MoveInput) : M Move :=
  fun e => match move (game e) i with
           | Moved m g' => Ok m (withGame e g')
           | Thrown g' => Err (withGame e g')
           end.

Definition game_undo : M (option Move) :=
  fun e => let (r, g') := undo (game e) in Ok r (withGame e g').

Notation "'do' x <- c ;; k" := (bind c (fun x => k))
  (at level 10, x binder, c at level 99, k at level 200).

(** *** Evaluator *)

Definition evaluateBoard (e : ChessEngine) : number :=
  if isCheckmate (game e) then
    match turn (game e) with White => NegInfinity | Black => Infinity end
  else if isDraw (game e) then Finite 0
  else Finite (boardScore (board (game e))).

Definition getEvaluation (e : ChessEngine) : number := evaluateBoard e.

(** *** Win probability

    The sigmoid is computed in floating point by the source; it is read
    here over the real numbers.  [Math.round] rounds half up. *)
Definition Math_round (x : R) : Z := Int_part (x + / 2)%R.

Definition sigmoid (evaluation : number) : R :=
  match evaluation with
  | Finite z => (1 / (1 + Rpower 10 (- IZR z / 400)))%R
  | Infinity => 1%R        (* 10 ** -Infinity is 0 *)
  | NegInfinity => 0%R     (* 10 ** Infinity is Infinity *)
  end.

Record WinProbability := { white : Z; black : Z }.

Definition getWinProbability (e : ChessEngine) : WinProbability :=
  let evaluation := evaluateBoard e in
  if isCheckmate (game e) then
    match turn (game e) with
    | White => {| white := 0; black := 100 |}
    | Black => {| white := 100; black := 0 |}
    end
  else if isDraw (game e) then {| white := 50; black := 50 |}
  else
    let whiteWin := Math_round (sigmoid evaluation * 100)%R in
    {| white := whiteWin; black := 100 - whiteWin |}.

(** *** Search *)

Definition getSearchDepth (e : ChessEngine) : nat :=
  match difficulty e with
  | easy => 1
  | medium => 2
  | hard => 3
  end.

(** The [for] loop of a maximizing node; [rec] is the recursive call
    [minimax(depth - 1, alpha, beta, false)]. *)
Fixpoint maxLoop (rec : number -> number -> M number) (ms : list Move)
    (alpha beta maxEval : number) : M number :=
  match ms with
  | [] => ret maxEval
  | m :: rest =>
      do _ <- game_move (inputOfMove m) ;;
      do evalScore <- rec alpha beta ;;
      do _ <- game_undo ;;
      let maxEval := Num.max maxEval evalScore in
      let alpha := Num.max alpha evalScore in
      if Num.leb beta alpha then ret maxEval
      else maxLoop rec rest alpha beta maxEval
  end.

(** The [for] loop of a minimizing node. *)
Fixpoint minLoop (rec : number -> number -> M number) (ms : list Move)
    (alpha beta minEval : number) : M number :=
  match ms with
  | [] => ret minEval
  | m :: rest =>
      do _ <- game_move (inputOfMove m) ;;
      do evalScore <- rec alpha beta ;;
      do _ <- game_undo ;;
      let minEval := Num.min minEval evalScore in
      let beta := Num.min beta evalScore in
      if Num.leb beta alpha then ret minEval
      else minLoop rec rest alpha beta minEval
  end.

(** [depth] is a natural number: [getSearchDepth] yields 1, 2 or 3 and
    every recursive call passes [depth - 1] until it is 0. *)
Fixpoint minimax (depth : nat) (alpha beta : number) (isMaximizing : bool)
    : M number :=
  match depth with
  | O => fun e => Ok (evaluateBoard e) e
  | S d =>
      fun e =>
        if isGameOver (game e) then Ok (evaluateBoard e) e
        else
          let moves := moves (game e) in
          if isMaximizing then
            maxLoop (fun a b => minimax d a b false) moves alpha beta NegInfinity e
          else
            minLoop (fun a b => minimax d a b true) moves alpha beta Infinity e
  end.

(** [[array[i], array[j]] = [array[j], array[i]]] for indices inside
    the array. *)
Definition swap {A} (i j : nat) (array : list A) : list A :=
  match array !! i, array !! j with
  | Some x, Some y => <[j:=x]> (<[i:=y]> array)
  | _, _ => array
  end.

(** [shuffleArray]: [rnd i] stands for the draw of [Math.random] in the
    round with index [i]; [Math.floor(Math.random() * (i + 1))] lies
    between 0 and [i]. *)
Fixpoint shuffleFrom {A} (rnd : nat -> nat) (i : nat) (array : list A) : list A :=
  match i with
  | O => array
  | S i' => shuffleFrom rnd i' (swap i (rnd i mod (i + 1))%nat array)
  end.

Definition shuffleArray {A} (rnd : nat -> nat) (array : list A) : list A :=
  shuffleFrom rnd (length array - 1)%nat array.

(** The [for] loop of [getBestMove], with its two locals. *)
Fixpoint bestLoop (depth : nat) (isMaximizing : bool) (ms : list Move)
    (bestMove : option Move) (bestValue : number) : M (option Move * number) :=
  match ms with
  | [] => ret (bestMove, bestValue)
  | m :: rest =>
      do _ <- game_move (inputOfMove m) ;;
      do value <- minimax (depth - 1)%nat NegInfinity Infinity (negb isMaximizing) ;;
      do _ <- game_undo ;;
      if isMaximizing then
        if Num.gtb value bestValue
        then bestLoop depth isMaximizing rest (Some m) value
        else bestLoop depth isMaximizing rest bestMove bestValue
      else
        if Num.ltb value bestValue
        then bestLoop depth isMaximizing rest (Some m) value
        else bestLoop depth isMaximizing rest bestMove bestValue
  end.

(** [getBestMove] up to its [return]: the final [bestMove] and
    [bestValue]. *)
Definition getBestMoveLocals (rnd : nat -> nat) : M (option Move * number) :=
  fun e =>
    let depth := getSearchDepth e in
    let isMaximizing := Color_eqb (turn (game e)) White in
    let bestValue := if isMaximizing then NegInfinity else Infinity in
    let moves := shuffleArray rnd (moves (game e)) in
    bestLoop depth isMaximizing moves None bestValue e.

Definition getBestMove (rnd : nat -> nat) : M (option Move) :=
  do r <- getBestMoveLocals rnd ;; ret (fst r).

(** *** Session operations *)

Record CapturedPieces := {
  captured_w : list PieceSymbol;
  captured_b : list PieceSymbol
}.

Definition getCapturedPieces (history : list Move) : CapturedPieces :=
  foldl (fun acc move =>
    match captured move with
    | Some c =>
        (* If white made the move, they captured a black piece *)
        match color move with
        | White => {| captured_w := captured_w acc ++ [c];
                      captured_b := captured_b acc |}
        | Black => {| captured_w := captured_w acc;
                      captured_b := captured_b acc ++ [c] |}
        end
    | None => acc
    end) {| captured_w := []; captured_b := [] |} history.

Record GameState := {
  st_fen : string;
  st_turn : Color;
  st_isCheck : bool;
  st_isCheckmate : bool;
  st_isStalemate : bool;
  st_isDraw : bool;
  st_isGameOver : bool;
  moveHistory : list Move;
  capturedPieces : CapturedPieces
}.

Definition getState (e : ChessEngine) : GameState :=
  let history := history (game e) in
  let capturedPieces := getCapturedPieces history in
  {| st_fen := fen (game e);
     st_turn := turn (game e);
     st_isCheck := isCheck (game e);
     st_isCheckmate := isCheckmate (game e);
     st_isStalemate := isStalemate (game e);
     st_isDraw := isDraw (game e);
     st_isGameOver := isGameOver (game e);
     moveHistory := history;
     capturedPieces := capturedPieces |}.

(** [promotion || 'q']: every piece symbol is a non-empty string. *)
Definition makeMove (from to : Square) (promotion : option PieceSymbol)
    : M (option Move) :=
  tryCatch
    (do move <- game_move {| in_from := from; in_to := to;
                             in_promotion := Some (default Queen promotion) |} ;;
     ret (Some move))
    (ret None).

Definition undoMove : M (option Move) := game_undo.

(** *** The search read as a function of the position

    [after e m] is the engine once [game.move(m)] has run.  [minimaxP]
    is [minimax] with the moves made on a copy instead of made and
    undone in place; [minimax_run] relates the two. *)
Definition next (g : Game) (m : Move) : Game :=
  match move g (inputOfMove m) with
  | Moved _ g' => g'
  | Thrown g' => g'
  end.

Definition after (e : ChessEngine) (m : Move) : ChessEngine :=
  withGame e (next (game e) m).

Fixpoint maxLoopP (rec : number -> number -> ChessEngine -> number)
    (e : ChessEngine) (ms : list Move) (alpha beta maxEval : number) : number :=
  match ms with
  | [] => maxEval
  | m :: rest =>
      let evalScore := rec alpha beta (after e m) in
      let maxEval := Num.max maxEval evalScore in
      let alpha := Num.max alpha evalScore in
      if Num.leb beta alpha then maxEval
      else maxLoopP rec e rest alpha beta maxEval
  end.

Fixpoint minLoopP (rec : number -> number -> ChessEngine -> number)
    (e : ChessEngine) (ms : list Move) (alpha beta minEval : number) : number :=
  match ms with
  | [] => minEval
  | m :: rest =>
      let evalScore := rec alpha beta (after e m) in
      let minEval := Num.min minEval evalScore in
      let beta := Num.min beta evalScore in
      if Num.leb beta alpha then minEval
      else minLoopP rec e rest alpha beta minEval
  end.

Fixpoint minimaxP (depth : nat) (alpha beta : number) (isMaximizing : bool)
    (e : ChessEngine) : number :=
  match depth with
  | O => evaluateBoard e
  | S d =>
      if isGameOver (game e) then evaluateBoard e
      else if isMaximizing then
        maxLoopP (fun a b => minimaxP d a b false) e (moves (game e))
                 alpha beta NegInfinity
      else
        minLoopP (fun a b => minimaxP d a b true) e (moves (game e))
                 alpha beta Infinity
  end.

(** The loop of [getBestMove] on copies of the position. *)
Fixpoint bestLoopP (depth : nat) (isMaximizing : bool) (e : ChessEngine)
    (ms : list Move) (bestMove : option Move) (bestValue : number)
    : option Move * number :=
  match ms with
  | [] => (bestMove, bestValue)
  | m :: rest =>
      let value :=
        minimaxP (depth - 1)%nat NegInfinity Infinity (negb isMaximizing)
                 (after e m) in
      if isMaximizing then
        if Num.gtb value bestValue
        then bestLoopP depth isMaximizing e rest (Some m) value
        else bestLoopP depth isMaximizing e rest bestMove bestValue
      else
        if Num.ltb value bestValue
        then bestLoopP depth isMaximizing e rest (Some m) value
        else bestLoopP depth isMaximizing e rest bestMove bestValue
  end.

(** Minimax without pruning, as the specification names it: the
    recursion of [minimax] over every legal move, with no window and no
    cutoff. *)
Fixpoint unprunedMinimax (depth : nat) (isMaximizing : bool)
    (e : ChessEngine) : number :=
  match depth with
  | O => evaluateBoard e
  | S d =>
      if isGameOver (game e) then evaluateBoard e
      else if isMaximizing then
        foldl Num.max NegInfinity
              (map (fun m => unprunedMinimax d false (after e m)) (moves (game e)))
      else
        foldl Num.min Infinity
              (map (fun m => unprunedMinimax d true (after e m)) (moves (game e)))
  end.

(** The legal triples of [makeMove]: some legal move answers to the
    input that [makeMove] submits. *)
Definition submitted (from to : Square) (promotion : option PieceSymbol)
    : MoveInput :=
  {| in_from := from; in_to := to;
     in_promotion := Some (default Queen promotion) |}.

Definition legalTriple (g : Game) (from to : Square)
    (promotion : option PieceSymbol) : bool :=
  existsb (matchesInput (submitted from to promotion)) (moves g).

(** Captures as the specification's invariant words them: the pieces
    taken by the moves of one side, in the order of the history. *)
Definition capturesBy (c : Color) (history : list Move) : list PieceSymbol :=
  omap (fun m => if Color_eqb (color m) c then captured m else None) history.

(** The number of history entries made by one side that carry a captured
    piece. *)
Definition captureCount (c : Color) (history : list Move) : nat :=
  length (List.filter
            (fun m => Color_eqb (color m) c
                      && match captured m with Some _ => true | None => false end)
            history).

(** *** What the engine relies on from chess.js

    [game.move] makes a legal move that answers to its input and throws
    otherwise, before it has changed anything; [game.undo] takes back the
    last move made; a stalemate counts as a draw. *)
Definition MoveAcceptsLegal : Prop :=
  forall g i, existsb (matchesInput i) (moves g) = true ->
    exists m g', move g i = Moved m g' /\ m ∈ moves g /\ matchesInput i m = true.

Definition MoveRejectsIllegal : Prop :=
  forall g i, existsb (matchesInput i) (moves g) = false ->
    exists g', move g i = Thrown g'.

Definition ThrowKeepsState : Prop :=
  forall g i g', move g i = Thrown g' -> g' = g.

Definition UndoRestores : Prop :=
  forall g i m g', move g i = Moved m g' -> undo g' = (Some m, g).

Definition StalemateIsDraw : Prop :=
  forall g, isStalemate g = true -> isDraw g = true.

End Engine.

Notation "'do' x <- c ;; k" := (bind c (fun x => k))
  (at level 10, x binder, c at level 99, k at level 200).


(** ** The standard starting position as [game.board()] lists it: row 0
    is the eighth rank. *)
Definition bk (t : PieceSymbol) : option Piece := Some {| type := t; pcolor := Black |}.
Definition wh (t : PieceSymbol) : option Piece := Some {| type := t; pcolor := White |}.

Definition backRank (mk : PieceSymbol -> option Piece) : list (option Piece) :=
  map mk [Rook; Knight; Bishop; Queen; King; Bishop; Knight; Rook].

Definition startBoard : Board :=
  [ backRank bk;
    replicate 8 (bk Pawn);
    replicate 8 None;
    replicate 8 None;
    replicate 8 None;
    replicate 8 None;
    replicate 8 (wh Pawn);
    backRank wh ].


(** ** A concrete rules engine: explicit game trees

    A position lists its status flags, its board and its legal moves with
    the positions they lead to.  The state of the engine is the current
    position and the trail of moves made, which [undo] pops. *)
Module Tree.

Inductive Pos := MkPos {
  p_fen : string;
  p_turn : Color;
  p_board : Board;
  p_check : bool;
  p_checkmate : bool;
  p_stalemate : bool;
  p_otherDraw : bool;     (* fifty moves, repetition, bare material *)
  p_next : list (Move * Pos)
}.

Record State := { cur : Pos; trail : list (Move * Pos) }.

Fixpoint findReply (i : MoveInput) (l : list (Move * Pos)) : option (Move * Pos) :=
  match l with
  | [] => None
  | (m, p) :: l' => if matchesInput i m then Some (m, p) else findReply i l'
  end.

Definition t_move (g : State) (i : MoveInput) : MoveResult State :=
  match findReply i (p_next (cur g)) with
  | Some (m, p) => Moved m {| cur := p; trail := (m, cur g) :: trail g |}
  | None => Thrown g
  end.

Definition t_undo (g : State) : option Move * State :=
  match trail g with
  | (m, p) :: t => (Some m, {| cur := p; trail := t |})
  | [] => (None, g)
  end.

Definition t_isDraw (g : State) : bool :=
  p_stalemate (cur g) || p_otherDraw (cur g).

Definition engine : RulesEngine :=
  {| Game := State;
     fen g := p_fen (cur g);
     turn g := p_turn (cur g);
     isCheck g := p_check (cur g);
     isCheckmate g := p_checkmate (cur g);
     isStalemate g := p_stalemate (cur g);
     isDraw := t_isDraw;
     isGameOver g := p_checkmate (cur g) || p_stalemate (cur g) || t_isDraw g;
     board g := p_board (cur g);
     history g := rev (map fst (trail g));
     moves g := map fst (p_next (cur g));
     move := t_move;
     undo := t_undo |}.

#[local] Existing Instance engine.

(** A fresh engine object on a position: [new ChessEngine()] followed by
    [loadFen]; the difficulty is the constructor's unless set. *)
Definition engineAt (d : Difficulty) (p : Pos) : ChessEngine :=
  {| game := ({| cur := p; trail := [] |} : Game);
     difficulty := d; playerColor := White |}.

(** Boards from a list of pieces with their row and column. *)
Definition place (ps : list (nat * nat * Piece)) : Board :=
  map (fun row =>
    map (fun col =>
      snd <$> find (fun x => Nat.eqb (fst (fst x)) row && Nat.eqb (snd (fst x)) col) ps)
      (seq 0 8)) (seq 0 8).

Definition W (t : PieceSymbol) : Piece := {| type := t; pcolor := White |}.
Definition B (t : PieceSymbol) : Piece := {| type := t; pcolor := Black |}.

Definition quiet (f : string) (c : Color) (b : Board) (next : list (Move * Pos)) : Pos :=
  {| p_fen := f; p_turn := c; p_board := b; p_check := false;
     p_checkmate := false; p_stalemate := false; p_otherDraw := false;
     p_next := next |}.

Definition mated (f : string) (c : Color) (b : Board) : Pos :=
  {| p_fen := f; p_turn := c; p_board := b; p_check := true;
     p_checkmate := true; p_stalemate := false; p_otherDraw := false;
     p_next := [] |}.

Definition checked (f : string) (c : Color) (b : Board) (next : list (Move * Pos)) : Pos :=
  {| p_fen := f; p_turn := c; p_board := b; p_check := true;
     p_checkmate := false; p_stalemate := false; p_otherDraw := false;
     p_next := next |}.

Definition stalemated (f : string) (c : Color) (b : Board) : Pos :=
  {| p_fen := f; p_turn := c; p_board := b; p_check := false;
     p_checkmate := false; p_stalemate := true; p_otherDraw := false;
     p_next := [] |}.

Definition mv (c : Color) (f t : Square) (p : PieceSymbol)
    (cap promo : option PieceSymbol) (s : string) : Move :=
  {| color := c; from := f; to := t; piece := p; captured := cap;
     promotion := promo; san := s |}.

(** *** The opening position and the line 1. e4 d5 2. exd5, with one
    other first move listed. *)
Definition afterExd5 : Pos :=
  quiet "rnbqkbnr/ppp1pppp/8/3P4/8/8/PPPP1PPP/RNBQKBNR b KQkq - 0 2" Black
    [ backRank bk;
      [bk Pawn; bk Pawn; bk Pawn; None; bk Pawn; bk Pawn; bk Pawn; bk Pawn];
      replicate 8 None;
      [None; None; None; wh Pawn; None; None; None; None];
      replicate 8 None; replicate 8 None;
      [wh Pawn; wh Pawn; wh Pawn; wh Pawn; None; wh Pawn; wh Pawn; wh Pawn];
      backRank wh ] [].

Definition afterD5 : Pos :=
  quiet "rnbqkbnr/ppp1pppp/8/3p4/4P3/8/PPPP1PPP/RNBQKBNR w KQkq - 0 2" White
    [ backRank bk;
      [bk Pawn; bk Pawn; bk Pawn; None; bk Pawn; bk Pawn; bk Pawn; bk Pawn];
      replicate 8 None;
      [None; None; None; bk Pawn; None; None; None; None];
      [None; None; None; None; wh Pawn; None; None; None];
      replicate 8 None;
      [wh Pawn; wh Pawn; wh Pawn; wh Pawn; None; wh Pawn; wh Pawn; wh Pawn];
      backRank wh ]
    [ (mv White "e4" "d5" Pawn (Some Pawn) None "exd5", afterExd5) ].

Definition afterE4 : Pos :=
  quiet "rnbqkbnr/pppppppp/8/8/4P3/8/PPPP1PPP/RNBQKBNR b KQkq - 0 1" Black
    [ backRank bk; replicate 8 (bk Pawn); replicate 8 None; replicate 8 None;
      [None; None; None; None; wh Pawn; None; None; None]; replicate 8 None;
      [wh Pawn; wh Pawn; wh Pawn; wh Pawn; None; wh Pawn; wh Pawn; wh Pawn];
      backRank wh ]
    [ (mv Black "d7" "d5" Pawn None None "d5", afterD5) ].

Definition afterNf3 : Pos :=
  quiet "rnbqkbnr/pppppppp/8/8/8/5N2/PPPPPPPP/RNBQKB1R b KQkq - 1 1" Black
    [ backRank bk; replicate 8 (bk Pawn); replicate 8 None; replicate 8 None;
      replicate 8 None;
      [None; None; None; None; None; wh Knight; None; None];
      replicate 8 (wh Pawn);
      [wh Rook; wh Knight; wh Bishop; wh Queen; wh King; wh Bishop; None; wh Rook] ]
    [].

Definition start : Pos :=
  quiet "rnbqkbnr/pppppppp/8/8/8/8/PPPPPPPP/RNBQKBNR w KQkq - 0 1" White
    startBoard
    [ (mv White "e2" "e4" Pawn None None "e4", afterE4);
      (mv White "g1" "f3" Knight None None "Nf3", afterNf3) ].

(** *** White is mated whatever it plays

    White king a1; black king b3 and rook h2; White to move
    ([8/8/8/8/8/1k6/7r/K7 w - - 0 1]).  The only legal move is Kb1.  Black
    then has five king moves and fourteen rook moves, of which Rh1 mates.
    The tree stops at the horizon of a two-ply search. *)
Definition trapKa4 : Pos :=
  quiet "8/8/8/8/k7/8/7r/1K6 w - - 2 2" White
    (place [ (4, 0, B King); (6, 7, B Rook); (7, 1, W King) ])%nat [].

Definition trapKb4 : Pos :=
  quiet "8/8/8/8/1k6/8/7r/1K6 w - - 2 2" White
    (place [ (4, 1, B King); (6, 7, B Rook); (7, 1, W King) ])%nat [].

Definition trapKc4 : Pos :=
  quiet "8/8/8/8/2k5/8/7r/1K6 w - - 2 2" White
    (place [ (4, 2, B King); (6, 7, B Rook); (7, 1, W King) ])%nat [].

Definition trapKc3 : Pos :=
  quiet "8/8/8/8/8/2k5/7r/1K6 w - - 2 2" White
    (place [ (5, 2, B King); (6, 7, B Rook); (7, 1, W King) ])%nat [].

Definition trapKa3 : Pos :=
  quiet "8/8/8/8/8/k7/7r/1K6 w - - 2 2" White
    (place [ (5, 0, B King); (6, 7, B Rook); (7, 1, W King) ])%nat [].

Definition trapRh3 : Pos :=
  quiet "8/8/8/8/8/1k5r/8/1K6 w - - 2 2" White
    (place [ (5, 1, B King); (5, 7, B Rook); (7, 1, W King) ])%nat [].

Definition trapRh4 : Pos :=
  quiet "8/8/8/8/7r/1k6/8/1K6 w - - 2 2" White
    (place [ (4, 7, B Rook); (5, 1, B King); (7, 1, W King) ])%nat [].

Definition trapRh5 : Pos :=
  quiet "8/8/8/7r/8/1k6/8/1K6 w - - 2 2" White
    (place [ (3, 7, B Rook); (5, 1, B King); (7, 1, W King) ])%nat [].

Definition trapRh6 : Pos :=
  quiet "8/8/7r/8/8/1k6/8/1K6 w - - 2 2" White
    (place [ (2, 7, B Rook); (5, 1, B King); (7, 1, W King) ])%nat [].

Definition trapRh7 : Pos :=
  quiet "8/7r/8/8/8/1k6/8/1K6 w - - 2 2" White
    (place [ (1, 7, B Rook); (5, 1, B King); (7, 1, W King) ])%nat [].

Definition trapRh8 : Pos :=
  quiet "7r/8/8/8/8/1k6/8/1K6 w - - 2 2" White
    (place [ (0, 7, B Rook); (5, 1, B King); (7, 1, W King) ])%nat [].

Definition trapRh1 : Pos :=
  mated "8/8/8/8/8/1k6/8/1K5r w - - 2 2" White
    (place [ (5, 1, B King); (7, 1, W King); (7, 7, B Rook) ])%nat.

Definition trapRg2 : Pos :=
  quiet "8/8/8/8/8/1k6/6r1/1K6 w - - 2 2" White
    (place [ (5, 1, B King); (6, 6, B Rook); (7, 1, W King) ])%nat [].

Definition trapRf2 : Pos :=
  quiet "8/8/8/8/8/1k6/5r2/1K6 w - - 2 2" White
    (place [ (5, 1, B King); (6, 5, B Rook); (7, 1, W King) ])%nat [].

Definition trapRe2 : Pos :=
  quiet "8/8/8/8/8/1k6/4r3/1K6 w - - 2 2" White
    (place [ (5, 1, B King); (6, 4, B Rook); (7, 1, W King) ])%nat [].

Definition trapRd2 : Pos :=
  quiet "8/8/8/8/8/1k6/3r4/1K6 w - - 2 2" White
    (place [ (5, 1, B King); (6, 3, B Rook); (7, 1, W King) ])%nat [].

Definition trapRc2 : Pos :=
  quiet "8/8/8/8/8/1k6/2r5/1K6 w - - 2 2" White
    (place [ (5, 1, B King); (6, 2, B Rook); (7, 1, W King) ])%nat [].

Definition trapRb2 : Pos :=
  checked "8/8/8/8/8/1k6/1r6/1K6 w - - 2 2" White
    (place [ (5, 1, B King); (6, 1, B Rook); (7, 1, W King) ])%nat [].

Definition trapRa2 : Pos :=
  quiet "8/8/8/8/8/1k6/r7/1K6 w - - 2 2" White
    (place [ (5, 1, B King); (6, 0, B Rook); (7, 1, W King) ])%nat [].

Definition trapKb1 : Pos :=
  quiet "8/8/8/8/8/1k6/7r/1K6 b - - 1 1" Black
    (place [ (5, 1, B King); (6, 7, B Rook); (7, 1, W King) ])%nat
    [ (mv Black "b3" "a4" King None None "Ka4", trapKa4);
      (mv Black "b3" "b4" King None None "Kb4", trapKb4);
      (mv Black "b3" "c4" King None None "Kc4", trapKc4);
      (mv Black "b3" "c3" King None None "Kc3", trapKc3);
      (mv Black "b3" "a3" King None None "Ka3", trapKa3);
      (mv Black "h2" "h3" Rook None None "Rh3", trapRh3);
      (mv Black "h2" "h4" Rook None None "Rh4", trapRh4);
      (mv Black "h2" "h5" Rook None None "Rh5", trapRh5);
      (mv Black "h2" "h6" Rook None None "Rh6", trapRh6);
      (mv Black "h2" "h7" Rook None None "Rh7", trapRh7);
      (mv Black "h2" "h8" Rook None None "Rh8", trapRh8);
      (mv Black "h2" "h1" Rook None None "Rh1#", trapRh1);
      (mv Black "h2" "g2" Rook None None "Rg2", trapRg2);
      (mv Black "h2" "f2" Rook None None "Rf2", trapRf2);
      (mv Black "h2" "e2" Rook None None "Re2", trapRe2);
      (mv Black "h2" "d2" Rook None None "Rd2", trapRd2);
      (mv Black "h2" "c2" Rook None None "Rc2", trapRc2);
      (mv Black "h2" "b2" Rook None None "Rb2+", trapRb2);
      (mv Black "h2" "a2" Rook None None "Ra2", trapRa2) ].

Definition trap : Pos :=
  quiet "8/8/8/8/8/1k6/7r/K7 w - - 0 1" White
    (place [ (5, 1, B King); (6, 7, B Rook); (7, 0, W King) ])%nat
    [ (mv White "a1" "b1" King None None "Kb1", trapKb1) ].

(** *** A three-ply tree on which a cutoff returns a bound

    White king e1 and pawn d2 against the black king e8, a few moves of
    each position listed.  The pawn scores 80 on d2, 100 on d3 and 120
    on d4; the kings cancel. *)
Definition cutLeafA : Pos :=
  quiet "3k4/8/8/8/8/8/3P4/2K5 b - - 3 2" Black
    (place [ (0, 3, B King); (6, 3, W Pawn); (7, 2, W King) ])%nat [].

Definition cutLeafB1 : Pos :=
  quiet "5k2/8/8/8/8/3P4/8/3K4 b - - 0 2" Black
    (place [ (0, 5, B King); (5, 3, W Pawn); (7, 3, W King) ])%nat [].

Definition cutLeafB2 : Pos :=
  quiet "5k2/8/8/8/3P4/8/8/3K4 b - - 0 2" Black
    (place [ (0, 5, B King); (4, 3, W Pawn); (7, 3, W King) ])%nat [].

Definition cutA : Pos :=
  quiet "3k4/8/8/8/8/8/3P4/3K4 w - - 2 2" White
    (place [ (0, 3, B King); (6, 3, W Pawn); (7, 3, W King) ])%nat
    [ (mv White "d1" "c1" King None None "Kc1", cutLeafA) ].

Definition cutB : Pos :=
  quiet "5k2/8/8/8/8/8/3P4/3K4 w - - 2 2" White
    (place [ (0, 5, B King); (6, 3, W Pawn); (7, 3, W King) ])%nat
    [ (mv White "d2" "d3" Pawn None None "d3", cutLeafB1);
      (mv White "d2" "d4" Pawn None None "d4", cutLeafB2) ].

Definition cutM : Pos :=
  quiet "4k3/8/8/8/8/8/3P4/3K4 b - - 1 1" Black
    (place [ (0, 4, B King); (6, 3, W Pawn); (7, 3, W King) ])%nat
    [ (mv Black "e8" "d8" King None None "Kd8", cutA);
      (mv Black "e8" "f8" King None None "Kf8", cutB) ].

Definition cutRoot : Pos :=
  quiet "4k3/8/8/8/8/8/3P4/4K3 w - - 0 1" White
    (place [ (0, 4, B King); (6, 3, W Pawn); (7, 4, W King) ])%nat
    [ (mv White "e1" "d1" King None None "Kd1", cutM) ].

(** *** A pawn about to promote

    White king e1 and pawn a7, black king h7; the four promotions on a8
    and one king move are listed. *)
Definition promoBoard (t : PieceSymbol) : Board :=
  place [ (0, 0, W t); (1, 7, B King); (7, 4, W King) ]%nat.

Definition promoted (f : string) (t : PieceSymbol) : Pos :=
  quiet f Black (promoBoard t) [].

Definition promo : Pos :=
  quiet "8/P6k/8/8/8/8/8/4K3 w - - 0 1" White
    (place [ (1, 0, W Pawn); (1, 7, B King); (7, 4, W King) ])%nat
    [ (mv White "a7" "a8" Pawn None (Some Knight) "a8=N",
         promoted "N7/7k/8/8/8/8/8/4K3 b - - 0 1" Knight);
      (mv White "a7" "a8" Pawn None (Some Bishop) "a8=B",
         promoted "B7/7k/8/8/8/8/8/4K3 b - - 0 1" Bishop);
      (mv White "a7" "a8" Pawn None (Some Rook) "a8=R",
         promoted "R7/7k/8/8/8/8/8/4K3 b - - 0 1" Rook);
      (mv White "a7" "a8" Pawn None (Some Queen) "a8=Q",
         promoted "Q7/7k/8/8/8/8/8/4K3 b - - 0 1" Queen);
      (mv White "e1" "d1" King None None "Kd1",
         quiet "8/P6k/8/8/8/8/8/3K4 b - - 1 1" Black
           (place [ (1, 0, W Pawn); (1, 7, B King); (7, 3, W King) ])%nat []) ].

(** *** A stalemate: black king a8, white king c7 and queen b6 *)
Definition stale : Pos :=
  stalemated "k7/2K5/1Q6/8/8/8/8/8 b - - 0 1" Black
    (place [ (0, 0, B King); (1, 2, W King); (2, 1, W Queen) ])%nat.

(** The engine object after the three calls
    [makeMove('e2','e4')], [makeMove('d7','d5')], [makeMove('e4','d5')]
    on the opening position. *)
Definition stateOf {A} (r : Res A) : ChessEngine :=
  match r with Ok _ e => e | Err e => e end.

Definition sessionExd5 : ChessEngine :=
  stateOf
    ((do _ <- makeMove "e2" "e4" None ;;
      do _ <- makeMove "d7" "d5" None ;;
      makeMove "e4" "d5" None) (engineAt medium start)).

Definition a8Q : Move := mv White "a7" "a8" Pawn None (Some Queen) "a8=Q".

(** The engine objects the search visits below [cutRoot]. *)
Definition atM : ChessEngine :=
  after (engineAt hard cutRoot) (mv White "e1" "d1" King None None "Kd1").
Definition atA : ChessEngine :=
  after atM (mv Black "e8" "d8" King None None "Kd8").
Definition atB : ChessEngine :=
  after atM (mv Black "e8" "f8" King None None "Kf8").

End Tree.

(** * Further operations *)

(** ** The choice of [getBestMove] read off its loop

    [better] is the test that replaces [bestMove]: [value > bestValue] at
    a maximizing root, [value < bestValue] at a minimizing one.
    [childValue] is the unpruned value of the position a candidate leads
    to, at the depth the loop searches it. *)
Section Choice.
Context {RE : RulesEngine}.

Definition better (isMaximizing : bool) (value bestValue : number) : bool :=
  if isMaximizing then Num.gtb value bestValue else Num.ltb value bestValue.

Definition initialBest (isMaximizing : bool) : number :=
  if isMaximizing then NegInfinity else Infinity.

Definition childValue (depth : nat) (isMaximizing : bool) (e : ChessEngine)
    (m : Move) : number :=
  unprunedMinimax (depth - 1)%nat (negb isMaximizing) (after e m).

Definition rootIsMaximizing (e : ChessEngine) : bool :=
  Color_eqb (turn (game e)) White.

End Choice.



(** ** The position seen from the other side

    [mirrorBoard] turns the board upside down and swaps the colours of
    the pieces; [negate] is the unary minus of JavaScript on a score. *)
Definition flipColor (c : Color) : Color :=
  match c with White => Black | Black => White end.

Definition flipPiece (p : Piece) : Piece :=
  {| type := type p; pcolor := flipColor (pcolor p) |}.

Definition mirrorBoard (b : Board) : Board :=
  map (fun row =>
    map (fun col => flipPiece <$> at2 None b (7 - row) col) (seq 0 8))
    (seq 0 8).

(** The score one square adds to the sum of [evaluateBoard]. *)
Definition cellScore (b : Board) (row col : nat) : Z :=
  match at2 None b row col with
  | Some p => pieceScore row col p
  | None => 0
  end.

Definition negate (x : number) : number :=
  match x with
  | NegInfinity => Infinity
  | Finite z => Finite (- z)
  | Infinity => NegInfinity
  end.


(** ** Squares and board coordinates

    [squareToCoords] and [coordsToSquare] work on the characters of a
    square name.  A JavaScript string is read here as the list of its
    UTF-16 code units, and a number that may be [NaN] as an optional
    integer.  [row] and [col] are integers, as the callers pass them. *)
Module Coords.

Definition jsString := list Z.

(** [parseInt] of [square[1]]: that is undefined or a string of one code
    unit, and only the ten digits parse; everything else gives [NaN]. *)
Definition parseIntUnit (c : option Z) : option Z :=
  match c with
  | Some u => if (48 <=? u) && (u <=? 57) then Some (u - 48) else None
  | None => None
  end.

Record coords := { row : option Z; col : option Z }.

Definition squareToCoords (square : jsString) : coords :=
  (* charCodeAt(0) is NaN on the empty string *)
  let col := (fun c => c - 97) <$> square !! 0%nat in
  let row := (fun d => 8 - d) <$> parseIntUnit (square !! 1%nat) in
  {| row := row; col := col |}.

(** The decimal digits of [Number.prototype.toString] on an integer. *)
Fixpoint digitsOf (u : Decimal.uint) : jsString :=
  match u with
  | Decimal.Nil => []
  | Decimal.D0 u => 48 :: digitsOf u
  | Decimal.D1 u => 49 :: digitsOf u
  | Decimal.D2 u => 50 :: digitsOf u
  | Decimal.D3 u => 51 :: digitsOf u
  | Decimal.D4 u => 52 :: digitsOf u
  | Decimal.D5 u => 53 :: digitsOf u
  | Decimal.D6 u => 54 :: digitsOf u
  | Decimal.D7 u => 55 :: digitsOf u
  | Decimal.D8 u => 56 :: digitsOf u
  | Decimal.D9 u => 57 :: digitsOf u
  end.

Definition toString (n : Z) : jsString :=
  match Z.to_int n with
  | Decimal.Pos u => digitsOf u
  | Decimal.Neg u => 45 :: digitsOf u
  end.

(** [String.fromCharCode] keeps the low sixteen bits of its argument. *)
Definition fromCharCode (n : Z) : jsString := [n mod 65536].

Definition coordsToSquare (row col : Z) : jsString :=
  let file := fromCharCode (97 + col) in
  let rank := toString (8 - row) in
  file ++ rank.

(** The code units of a string of one-byte characters, such as a chess.js
    square name. *)
Definition unitsOf (s : string) : jsString :=
  map (fun a => Z.of_nat (Ascii.nat_of_ascii a)) (String.list_ascii_of_string s).

End Coords.


(** ** Moves from one square

    [movesOfSquare] stands for [game.moves({ square, verbose: true })],
    the legal moves that start on a square. *)
Section Squares.
Context {RE : RulesEngine}.
Variable movesOfSquare : Game -> Square -> list Move.

Definition getValidMoves (square : Square) (e : ChessEngine) : list Square :=
  map to (movesOfSquare (game e) square).

Definition getAllValidMoves (e : ChessEngine) : list Move := moves (game e).

(** chess.js lists for a square the legal moves that start there. *)
Definition MovesOfSquareFilter : Prop :=
  forall g square m, m ∈ movesOfSquare g square <-> m ∈ moves g /\ from m = square.

End Squares.

(** ** The side panels of [GameInfo.tsx] *)
Module GameInfo.

(** An entry of [movePairs]; an absent [white] or [black] is [undefined]. *)
Record MovePair := {
  number : Z;
  white : option Move;
  black : option Move
}.

(** The loop [for (let i = 0; i < moves.length; i += 2)]; the array has
    at most [moves.length] entries at even indices, which bounds the
    number of rounds. *)
Fixpoint movePairsFrom (rounds i : nat) (moves : list Move) : list MovePair :=
  match rounds with
  | O => []
  | S rounds =>
      if (i <? length moves)%nat then
        {| number := Z.of_nat (i / 2) + 1;
           white := moves !! i;
           black := moves !! (i + 1)%nat |}
        :: movePairsFrom rounds (i + 2) moves
      else []
  end.

Definition movePairs (moves : list Move) : list MovePair :=
  movePairsFrom (length moves) 0 moves.

(** The moves of a list of pairs, in order. *)
Definition movesOfPairs (pairs : list MovePair) : list Move :=
  concat (map (fun p => option_list (white p) ++ option_list (black p)) pairs).

Definition PIECE_ORDER : list PieceSymbol := [Queen; Rook; Bishop; Knight; Pawn].

(** The values of the panel, not those of the evaluator. *)
Definition PIECE_VALUES (t : PieceSymbol) : Z :=
  match t with
  | Queen => 9
  | Rook => 5
  | Bishop => 3
  | Knight => 3
  | Pawn => 1
  | King => 0
  end.

(** [Array.prototype.indexOf]: the first index, or -1. *)
Fixpoint indexOf (x : PieceSymbol) (l : list PieceSymbol) : Z :=
  match l with
  | [] => -1
  | y :: l' =>
      if PieceSymbol_eqb y x then 0
      else match indexOf x l' with
           | -1 => -1
           | i => i + 1
           end
  end.

(** The place of a piece in [PIECE_ORDER], and the order it induces. *)
Definition pieceRank (t : PieceSymbol) : Z := indexOf t PIECE_ORDER.

Definition rankLe (a b : PieceSymbol) : Prop := pieceRank a <= pieceRank b.

Definition comparePieces (a b : PieceSymbol) : Z :=
  indexOf a PIECE_ORDER - indexOf b PIECE_ORDER.

(** [Array.prototype.sort] with a comparator is a stable sort; it is read
    here as the stable insertion sort. *)
Fixpoint insertSorted {A} (compare : A -> A -> Z) (x : A) (l : list A) : list A :=
  match l with
  | [] => [x]
  | y :: l' =>
      if compare x y <=? 0 then x :: y :: l'
      else y :: insertSorted compare x l'
  end.

Definition sort {A} (compare : A -> A -> Z) (arr : list A) : list A :=
  foldr (insertSorted compare) [] arr.

Definition sortPieces (arr : list PieceSymbol) : list PieceSymbol :=
  sort comparePieces arr.

(** [arr.reduce((sum, p) => sum + PIECE_VALUES[p], 0)]. *)
Definition score (arr : list PieceSymbol) : Z :=
  foldl (fun sum p => sum + PIECE_VALUES p) 0 arr.

Definition scoreDiff (pieces : CapturedPieces) : Z :=
  let whiteCaptured := sortPieces (captured_w pieces) in
  let blackCaptured := sortPieces (captured_b pieces) in
  score whiteCaptured - score blackCaptured.

(** Pairs taken off a list two moves at a time, numbered from [k + 1]. *)
Fixpoint pairUp (rounds : nat) (k : Z) (l : list Move) : list MovePair :=
  match rounds, l with
  | S rounds, w :: b :: rest =>
      {| number := k + 1; white := Some w; black := Some b |}
      :: pairUp rounds (k + 1) rest
  | S rounds, [w] => [{| number := k + 1; white := Some w; black := None |}]
  | _, _ => []
  end.

End GameInfo.


(** ** More of the tree engine *)
Module TreeMore.
Import Tree.
#[local] Existing Instance engine.

(** The moves of the current position that start on a square. *)
Definition t_movesOfSquare (g : State) (square : Square) : list Move :=
  List.filter (fun m => String.eqb (from m) square) (map fst (p_next (cur g))).

(** [cutA] seen from the other side: black king d8 and pawn d7 against
    the white king d1, Black to move. *)
Definition cutAMirror : Pos :=
  quiet "3k4/3p4/8/8/8/8/8/3K4 b - - 2 2" Black
    (place [ (0, 3, B King); (1, 3, B Pawn); (7, 3, W King) ])%nat [].

Definition rnd0 (i : nat) : nat := 0%nat.

Definition Kd1 : Move := mv White "e1" "d1" King None None "Kd1".
Definition Rh1 : Move := mv Black "h2" "h1" Rook None None "Rh1#".
Definition e4 : Move := mv White "e2" "e4" Pawn None None "e4".
Definition d5 : Move := mv Black "d7" "d5" Pawn None None "d5".
Definition exd5 : Move := mv White "e4" "d5" Pawn (Some Pawn) None "exd5".

End TreeMore.

(** * Properties *)

(** ** Order on scores *)

Module NumFacts.

Lemma max_NegInfinity_l x : Num.max NegInfinity x = x.
Proof. by destruct x. Qed.

Lemma max_NegInfinity_r x : Num.max x NegInfinity = x.
Proof. by destruct x. Qed.

Lemma max_Infinity_l x : Num.max Infinity x = Infinity.
Proof. by destruct x. Qed.

Lemma max_Infinity_r x : Num.max x Infinity = Infinity.
Proof. by destruct x. Qed.

Lemma min_NegInfinity_l x : Num.min NegInfinity x = NegInfinity.
Proof. by destruct x. Qed.

Lemma min_NegInfinity_r x : Num.min x NegInfinity = NegInfinity.
Proof. by destruct x. Qed.

Lemma min_Infinity_l x : Num.min Infinity x = x.
Proof. by destruct x. Qed.

Lemma min_Infinity_r x : Num.min x Infinity = x.
Proof. by destruct x. Qed.

Lemma max_Finite x y : Num.max (Finite x) (Finite y) = Finite (Z.max x y).
Proof.
  unfold Num.max, Num.leb. destruct (Z.leb_spec x y); f_equal; lia.
Qed.

Lemma min_Finite x y : Num.min (Finite x) (Finite y) = Finite (Z.min x y).
Proof.
  unfold Num.min, Num.leb. destruct (Z.leb_spec x y); f_equal; lia.
Qed.

Lemma leb_NegInfinity_l x : Num.leb NegInfinity x = true.
Proof. done. Qed.

Lemma leb_Infinity_r x : Num.leb x Infinity = true.
Proof. by destruct x. Qed.

Lemma leb_Finite x y : Num.leb (Finite x) (Finite y) = (x <=? y).
Proof. done. Qed.

Lemma leb_Infinity_Finite x : Num.leb Infinity (Finite x) = false.
Proof. done. Qed.

Lemma leb_Finite_NegInfinity x : Num.leb (Finite x) NegInfinity = false.
Proof. done. Qed.

Lemma leb_Infinity_NegInfinity : Num.leb Infinity NegInfinity = false.
Proof. done. Qed.

Create Rewrite HintDb num.
#[export] Hint Rewrite
  max_NegInfinity_l max_NegInfinity_r max_Infinity_l max_Infinity_r
  min_NegInfinity_l min_NegInfinity_r min_Infinity_l min_Infinity_r
  max_Finite min_Finite leb_NegInfinity_l leb_Infinity_r leb_Finite
  leb_Infinity_Finite leb_Finite_NegInfinity leb_Infinity_NegInfinity
  : num.

(** Case analysis on every score in sight, then integer arithmetic. *)
Ltac num_prep :=
  repeat match goal with
  | H : (_ <=? _) = true |- _ => apply Z.leb_le in H
  | H : (_ <=? _) = false |- _ => apply Z.leb_gt in H
  | H : Finite _ = Finite _ |- _ => injection H as H
  end.

Ltac num_close :=
  first [ discriminate
        | reflexivity
        | progress f_equal; lia
        | apply Z.leb_le; lia
        | apply Z.leb_gt; lia
        | exfalso; lia ].

Ltac num_solve :=
  intros; unfold Num.clamp, Num.gtb, Num.ltb in *;
  repeat (match goal with x : number |- _ => destruct x end;
          autorewrite with num in *; try discriminate);
  num_prep; num_close.

Lemma clamp_full x : Num.clamp NegInfinity Infinity x = x.
Proof. num_solve. Qed.

Lemma max_assoc_swap a x y :
  Num.max (Num.max a x) y = Num.max (Num.max a y) x.
Proof. num_solve. Qed.

Lemma min_assoc_swap a x y :
  Num.min (Num.min a x) y = Num.min (Num.min a y) x.
Proof. num_solve. Qed.

Lemma max_assoc a x y : Num.max (Num.max a x) y = Num.max a (Num.max x y).
Proof. num_solve. Qed.

Lemma min_assoc a x y : Num.min (Num.min a x) y = Num.min a (Num.min x y).
Proof. num_solve. Qed.

Lemma leb_max_l a x : Num.leb a (Num.max a x) = true.
Proof. num_solve. Qed.

Lemma leb_min_l a x : Num.leb (Num.min a x) a = true.
Proof. num_solve. Qed.

Lemma leb_trans a b c :
  Num.leb a b = true -> Num.leb b c = true -> Num.leb a c = true.
Proof. num_solve. Qed.

Lemma leb_max_r a x : Num.leb x (Num.max a x) = true.
Proof. num_solve. Qed.

Lemma leb_min_r a x : Num.leb (Num.min a x) x = true.
Proof. num_solve. Qed.

Lemma max_mono a b x :
  Num.leb a b = true -> Num.leb (Num.max a x) (Num.max b x) = true.
Proof. num_solve. Qed.

Lemma min_mono a b x :
  Num.leb a b = true -> Num.leb (Num.min a x) (Num.min b x) = true.
Proof. num_solve. Qed.

Lemma leb_refl a : Num.leb a a = true.
Proof. num_solve. Qed.
(** Facts on three or four scores from which the window argument is
    assembled. *)
Lemma max_min_distr a x y :
  Num.max a (Num.min x y) = Num.min (Num.max a x) (Num.max a y).
Proof. num_solve. Qed.

Lemma max_absorb a e m :
  Num.leb e m = true -> Num.max (Num.max a e) m = Num.max a m.
Proof. num_solve. Qed.

Lemma min_absorb b e m :
  Num.leb m e = true -> Num.min (Num.min b e) m = Num.min b m.
Proof. num_solve. Qed.

Lemma max_l x y : Num.leb y x = true -> Num.max x y = x.
Proof. num_solve. Qed.

Lemma min_l x y : Num.leb x y = true -> Num.min x y = x.
Proof. num_solve. Qed.

Lemma open_max_below a b e :
  Num.leb b (Num.max a e) = false -> Num.min b e = e.
Proof. num_solve. Qed.

Lemma open_max_le a b e R :
  Num.leb b (Num.max a e) = false -> Num.leb e R = true ->
  Num.leb e (Num.min b R) = true.
Proof. num_solve. Qed.

Lemma closed_max_clamp a b e :
  Num.leb b (Num.max a e) = true ->
  Num.leb b (Num.clamp a b e) = true.
Proof. num_solve. Qed.

Lemma closed_min_clamp a b e :
  Num.leb (Num.min b e) a = true ->
  Num.clamp a b e = a.
Proof. num_solve. Qed.

Lemma clamp_max_below a b M e :
  Num.leb M a = true -> Num.clamp a b (Num.max M e) = Num.clamp a b e.
Proof. num_solve. Qed.

Lemma clamp_min_above a b M e :
  Num.leb b M = true -> Num.clamp a b (Num.min M e) = Num.clamp a b e.
Proof. num_solve. Qed.

Lemma clamp_max a b x y :
  Num.clamp a b (Num.max x y) = Num.max (Num.clamp a b x) (Num.min b y).
Proof. num_solve. Qed.

Lemma clamp_min a b x y :
  Num.clamp a b (Num.min x y) = Num.min (Num.clamp a b x) (Num.max a (Num.min b y)).
Proof. num_solve. Qed.

(** The four steps of the window argument: a cutoff and a continuation,
    at a maximizing and at a minimizing node. *)
Lemma max_base a b M :
  Num.leb M a = true -> Num.clamp a b M = Num.clamp a b NegInfinity.
Proof. num_solve. Qed.

Lemma max_cut a b e v M L :
  Num.leb b (Num.max a e) = true ->
  Num.clamp a b e = Num.clamp a b v ->
  Num.leb M a = true ->
  Num.clamp a b (Num.max M e) = Num.clamp a b (Num.max v L).
Proof.
  intros Hcut Hev HM.
  rewrite (clamp_max_below _ _ _ _ HM), clamp_max, <- Hev.
  symmetry. apply max_l.
  eapply leb_trans; [apply leb_min_l|by apply closed_max_clamp].
Qed.

Lemma max_go a b e v R L :
  Num.leb b (Num.max a e) = false ->
  Num.clamp a b e = Num.clamp a b v ->
  Num.leb e R = true ->
  Num.clamp (Num.max a e) b R = Num.clamp (Num.max a e) b L ->
  Num.clamp a b R = Num.clamp a b (Num.max v L).
Proof.
  intros Hopen Hev HeR HRL.
  rewrite clamp_max, <- Hev.
  unfold Num.clamp in *. rewrite (open_max_below _ _ _ Hopen).
  rewrite <- HRL. symmetry. apply max_absorb. by eapply open_max_le.
Qed.

Lemma min_base a b M :
  Num.leb b M = true -> Num.clamp a b M = Num.clamp a b Infinity.
Proof. num_solve. Qed.

Lemma min_cut a b e v M L :
  Num.leb (Num.min b e) a = true ->
  Num.clamp a b e = Num.clamp a b v ->
  Num.leb b M = true ->
  Num.clamp a b (Num.min M e) = Num.clamp a b (Num.min v L).
Proof.
  intros Hcut Hev HM.
  rewrite (clamp_min_above _ _ _ _ HM), clamp_min, <- Hev.
  rewrite (closed_min_clamp _ _ _ Hcut).
  symmetry. apply min_l. apply leb_max_l.
Qed.

Lemma min_go a b e v R L :
  Num.leb (Num.min b e) a = false ->
  Num.clamp a b e = Num.clamp a b v ->
  Num.leb R e = true ->
  Num.clamp a (Num.min b e) R = Num.clamp a (Num.min b e) L ->
  Num.clamp a b R = Num.clamp a b (Num.min v L).
Proof.
  intros Hopen Hev HRe HRL. unfold Num.clamp in *.
  rewrite (min_absorb b e R HRe) in HRL. rewrite HRL.
  rewrite <- (min_assoc b v L).
  by rewrite (max_min_distr a (Num.min b e) L),
             (max_min_distr a (Num.min b v) L), Hev.
Qed.

End NumFacts.

Import NumFacts.

(** ** The shuffle permutes its array *)

Section Shuffle.
Context {A : Type}.

Lemma swap_Permutation (i j : nat) (array : list A) : swap i j array ≡ₚ array.
Proof.
  unfold swap.
  destruct (array !! i) as [x|] eqn:Hi; [|done].
  destruct (array !! j) as [y|] eqn:Hj; [|done].
  by apply Permutation_insert_swap.
Qed.

Lemma shuffleFrom_Permutation rnd (i : nat) (array : list A) :
  shuffleFrom rnd i array ≡ₚ array.
Proof.
  revert array. induction i as [|i IH]; intros array; simpl; [done|].
  by rewrite IH, swap_Permutation.
Qed.

Lemma shuffleArray_Permutation rnd (array : list A) :
  shuffleArray rnd array ≡ₚ array.
Proof. apply shuffleFrom_Permutation. Qed.

Lemma shuffleArray_nil rnd (array : list A) :
  shuffleArray rnd array = [] <-> array = [].
Proof.
  split; intros H.
  - apply Permutation_nil_r. by rewrite <- H, shuffleArray_Permutation.
  - by subst.
Qed.

End Shuffle.

(** ** Folds of [Math.max] and [Math.min] *)

Lemma foldl_max_Permutation (l l' : list number) :
  l ≡ₚ l' -> forall a, foldl Num.max a l = foldl Num.max a l'.
Proof.
  induction 1 as [|x l l' _ IH|x y l|l l' l'' _ IH1 _ IH2]; intros a; simpl.
  - done.
  - apply IH.
  - by rewrite max_assoc_swap.
  - by rewrite IH1.
Qed.

Lemma foldl_min_Permutation (l l' : list number) :
  l ≡ₚ l' -> forall a, foldl Num.min a l = foldl Num.min a l'.
Proof.
  induction 1 as [|x l l' _ IH|x y l|l l' l'' _ IH1 _ IH2]; intros a; simpl.
  - done.
  - apply IH.
  - by rewrite min_assoc_swap.
  - by rewrite IH1.
Qed.

Lemma foldl_max_from (l : list number) a :
  foldl Num.max a l = Num.max a (foldl Num.max NegInfinity l).
Proof.
  revert a. induction l as [|x l IH]; intros a; simpl.
  - by rewrite max_NegInfinity_r.
  - rewrite IH, (IH (Num.max NegInfinity x)), max_NegInfinity_l.
    apply max_assoc.
Qed.

Lemma foldl_min_from (l : list number) a :
  foldl Num.min a l = Num.min a (foldl Num.min Infinity l).
Proof.
  revert a. induction l as [|x l IH]; intros a; simpl.
  - by rewrite min_Infinity_r.
  - rewrite IH, (IH (Num.min Infinity x)), min_Infinity_l.
    apply min_assoc.
Qed.

(** ** The search leaves the position as it found it *)

Section Search.
Context {RE : RulesEngine}.
Hypothesis accepts : MoveAcceptsLegal.
Hypothesis restores : UndoRestores.

Lemma withGame_game (e : ChessEngine) : withGame e (game e) = e.
Proof. by destruct e. Qed.

Lemma withGame_withGame (e : ChessEngine) g g' :
  withGame (withGame e g) g' = withGame e g'.
Proof. done. Qed.

Lemma matchesInput_self (m : Move) : matchesInput (inputOfMove m) m = true.
Proof.
  unfold matchesInput, inputOfMove; simpl.
  rewrite !String.eqb_refl; simpl.
  destruct (promotion m) as [[]|]; done.
Qed.

Lemma legal_matches g (m : Move) :
  m ∈ moves g -> existsb (matchesInput (inputOfMove m)) (moves g) = true.
Proof.
  intros Hm. apply existsb_exists. exists m. split.
  - by apply list_elem_of_In.
  - apply matchesInput_self.
Qed.

(** One round of a loop: make a legal move, run the body on the position
    reached, take the move back. *)
Lemma move_body_undo {A B} (e : ChessEngine) (m : Move)
    (body : M A) (bodyP : ChessEngine -> A) (k : A -> M B) :
  m ∈ moves (game e) ->
  (forall e', body e' = Ok (bodyP e') e') ->
  (do _ <- game_move (inputOfMove m) ;;
   do x <- body ;;
   do _ <- game_undo ;;
   k x) e = k (bodyP (after e m)) e.
Proof.
  intros Hm Hbody.
  destruct (accepts _ _ (legal_matches _ _ Hm)) as (m' & g' & Hmove & _ & _).
  unfold bind at 1, game_move. unfold after, next. rewrite Hmove.
  unfold bind at 1. rewrite Hbody.
  unfold bind, game_undo; simpl.
  by rewrite (restores _ _ _ _ Hmove), withGame_withGame, withGame_game.
Qed.

Lemma maxLoop_run rec recP (e : ChessEngine) ms :
  (forall a b e', rec a b e' = Ok (recP a b e') e') ->
  (forall m, m ∈ ms -> m ∈ moves (game e)) ->
  forall alpha beta maxEval,
    maxLoop rec ms alpha beta maxEval e
    = Ok (maxLoopP recP e ms alpha beta maxEval) e.
Proof.
  intros Hrec. induction ms as [|m ms IH]; intros Hin alpha beta maxEval.
  - done.
  - cbn [maxLoop maxLoopP].
    rewrite (move_body_undo e m (rec alpha beta) (recP alpha beta));
      [|apply Hin; left|apply Hrec].
    destruct (Num.leb beta _); [done|].
    apply IH. intros m' Hm'. apply Hin. by right.
Qed.

Lemma minLoop_run rec recP (e : ChessEngine) ms :
  (forall a b e', rec a b e' = Ok (recP a b e') e') ->
  (forall m, m ∈ ms -> m ∈ moves (game e)) ->
  forall alpha beta minEval,
    minLoop rec ms alpha beta minEval e
    = Ok (minLoopP recP e ms alpha beta minEval) e.
Proof.
  intros Hrec. induction ms as [|m ms IH]; intros Hin alpha beta minEval.
  - done.
  - cbn [minLoop minLoopP].
    rewrite (move_body_undo e m (rec alpha beta) (recP alpha beta));
      [|apply Hin; left|apply Hrec].
    destruct (Num.leb _ alpha); [done|].
    apply IH. intros m' Hm'. apply Hin. by right.
Qed.

(** [minimax] returns, with the value of [minimaxP], on the engine it
    was called on. *)
Lemma minimax_run depth :
  forall alpha beta isMaximizing e,
    minimax depth alpha beta isMaximizing e
    = Ok (minimaxP depth alpha beta isMaximizing e) e.
Proof.
  induction depth as [|d IH]; intros alpha beta isMaximizing e; [done|].
  cbn [minimax minimaxP].
  destruct (isGameOver (game e)); [done|].
  destruct isMaximizing.
  - apply maxLoop_run; [intros; apply IH|done].
  - apply minLoop_run; [intros; apply IH|done].
Qed.

Lemma bestLoop_run depth isMaximizing (e : ChessEngine) ms :
  (forall m, m ∈ ms -> m ∈ moves (game e)) ->
  forall bestMove bestValue,
    bestLoop depth isMaximizing ms bestMove bestValue e
    = Ok (bestLoopP depth isMaximizing e ms bestMove bestValue) e.
Proof.
  induction ms as [|m ms IH]; intros Hin bestMove bestValue; [done|].
  cbn [bestLoop bestLoopP].
  rewrite (move_body_undo e m _
             (minimaxP (depth - 1) NegInfinity Infinity (negb isMaximizing)));
    [|apply Hin; left|intros; apply minimax_run].
  assert (forall m', m' ∈ ms -> m' ∈ moves (game e)) as Hin'
    by (intros m' Hm'; apply Hin; by right).
  destruct isMaximizing; simpl.
  - destruct (Num.gtb _ bestValue); by apply IH.
  - destruct (Num.ltb _ bestValue); by apply IH.
Qed.

Lemma getBestMoveLocals_run rnd (e : ChessEngine) :
  getBestMoveLocals rnd e
  = Ok (bestLoopP (getSearchDepth e) (Color_eqb (turn (game e)) White) e
          (shuffleArray rnd (moves (game e))) None
          (if Color_eqb (turn (game e)) White then NegInfinity else Infinity))
       e.
Proof.
  unfold getBestMoveLocals. apply bestLoop_run.
  intros m Hm. by rewrite <- (shuffleArray_Permutation rnd).
Qed.

Lemma getBestMove_run rnd (e : ChessEngine) :
  getBestMove rnd e
  = Ok (fst (bestLoopP (getSearchDepth e) (Color_eqb (turn (game e)) White) e
               (shuffleArray rnd (moves (game e))) None
               (if Color_eqb (turn (game e)) White then NegInfinity else Infinity)))
       e.
Proof.
  unfold getBestMove, bind. by rewrite getBestMoveLocals_run.
Qed.

Lemma getBestMove_no_moves rnd (e : ChessEngine) :
  moves (game e) = [] -> getBestMove rnd e = Ok None e.
Proof.
  intros H. rewrite getBestMove_run, H. done.
Qed.

End Search.

(** ** The window argument *)

Section Window.
Context {RE : RulesEngine}.

Lemma maxLoopP_ge rec (e : ChessEngine) ms :
  forall alpha beta maxEval,
    Num.leb maxEval (maxLoopP rec e ms alpha beta maxEval) = true.
Proof.
  induction ms as [|m ms IH]; intros alpha beta maxEval; simpl.
  - apply leb_refl.
  - destruct (Num.leb beta _).
    + apply leb_max_l.
    + eapply leb_trans; [apply leb_max_l|apply IH].
Qed.

Lemma minLoopP_le rec (e : ChessEngine) ms :
  forall alpha beta minEval,
    Num.leb (minLoopP rec e ms alpha beta minEval) minEval = true.
Proof.
  induction ms as [|m ms IH]; intros alpha beta minEval; simpl.
  - apply leb_refl.
  - destruct (Num.leb _ alpha).
    + apply leb_min_l.
    + eapply leb_trans; [apply IH|apply leb_min_l].
Qed.

Lemma maxLoopP_window rec (v : ChessEngine -> number) (e : ChessEngine) ms beta :
  (forall a b e', Num.clamp a b (rec a b e') = Num.clamp a b (v e')) ->
  forall alpha maxEval, Num.leb maxEval alpha = true ->
    Num.clamp alpha beta (maxLoopP rec e ms alpha beta maxEval)
    = Num.clamp alpha beta
        (foldl Num.max NegInfinity (map (fun m => v (after e m)) ms)).
Proof.
  intros Hrec. induction ms as [|m ms IH]; intros alpha maxEval HM.
  - by apply max_base.
  - cbn [maxLoopP map foldl].
    rewrite foldl_max_from, max_NegInfinity_l.
    destruct (Num.leb beta _) eqn:Hcut.
    + by apply max_cut.
    + apply (max_go _ _ _ _ _ _ Hcut (Hrec _ _ _)).
      * eapply leb_trans; [apply leb_max_r|apply maxLoopP_ge].
      * by apply IH, max_mono.
Qed.

Lemma minLoopP_window rec (v : ChessEngine -> number) (e : ChessEngine) ms alpha :
  (forall a b e', Num.clamp a b (rec a b e') = Num.clamp a b (v e')) ->
  forall beta minEval, Num.leb beta minEval = true ->
    Num.clamp alpha beta (minLoopP rec e ms alpha beta minEval)
    = Num.clamp alpha beta
        (foldl Num.min Infinity (map (fun m => v (after e m)) ms)).
Proof.
  intros Hrec. induction ms as [|m ms IH]; intros beta minEval HM.
  - by apply min_base.
  - cbn [minLoopP map foldl].
    rewrite foldl_min_from, min_Infinity_l.
    destruct (Num.leb _ alpha) eqn:Hcut.
    + by apply min_cut.
    + apply (min_go _ _ _ _ _ _ Hcut (Hrec _ _ _)).
      * eapply leb_trans; [apply minLoopP_le|apply leb_min_r].
      * by apply IH, min_mono.
Qed.

(** Inside the window the pruned value is the unpruned one; outside it
    is on the same side of the window. *)
Lemma minimaxP_window depth :
  forall alpha beta isMaximizing (e : ChessEngine),
    Num.clamp alpha beta (minimaxP depth alpha beta isMaximizing e)
    = Num.clamp alpha beta (unprunedMinimax depth isMaximizing e).
Proof.
  induction depth as [|d IH]; intros alpha beta isMaximizing e; [done|].
  cbn [minimaxP unprunedMinimax].
  destruct (isGameOver (game e)); [done|].
  destruct isMaximizing.
  - apply maxLoopP_window; [intros; apply IH|done].
  - apply minLoopP_window; [intros; apply IH|num_solve].
Qed.

Lemma minimaxP_full depth isMaximizing (e : ChessEngine) :
  minimaxP depth NegInfinity Infinity isMaximizing e
  = unprunedMinimax depth isMaximizing e.
Proof.
  rewrite <- (clamp_full (minimaxP _ _ _ _ _)), minimaxP_window.
  apply clamp_full.
Qed.

Lemma gtb_keep_max v b : (if Num.gtb v b then v else b) = Num.max b v.
Proof.
  unfold Num.gtb, Num.ltb, Num.max.
  destruct (Num.leb v b) eqn:H1, (Num.leb b v) eqn:H2; simpl; try done;
    revert H1 H2; num_solve.
Qed.

Lemma ltb_keep_min v b : (if Num.ltb v b then v else b) = Num.min b v.
Proof.
  unfold Num.ltb, Num.min.
  destruct (Num.leb v b) eqn:H1, (Num.leb b v) eqn:H2; simpl; try done;
    revert H1 H2; num_solve.
Qed.

Lemma bestLoopP_max depth (e : ChessEngine) ms :
  forall bestMove bestValue,
    snd (bestLoopP depth true e ms bestMove bestValue)
    = foldl Num.max bestValue
        (map (fun m => unprunedMinimax (depth - 1)%nat false (after e m)) ms).
Proof.
  induction ms as [|m ms IH]; intros bestMove bestValue; [done|].
  cbn [bestLoopP map foldl negb]. rewrite minimaxP_full.
  rewrite <- gtb_keep_max.
  destruct (Num.gtb _ bestValue); apply IH.
Qed.

Lemma bestLoopP_min depth (e : ChessEngine) ms :
  forall bestMove bestValue,
    snd (bestLoopP depth false e ms bestMove bestValue)
    = foldl Num.min bestValue
        (map (fun m => unprunedMinimax (depth - 1)%nat true (after e m)) ms).
Proof.
  induction ms as [|m ms IH]; intros bestMove bestValue; [done|].
  cbn [bestLoopP map foldl negb]. rewrite minimaxP_full.
  rewrite <- ltb_keep_min.
  destruct (Num.ltb _ bestValue); apply IH.
Qed.

Lemma bestLoopP_value rnd (e : ChessEngine) :
  isGameOver (game e) = false ->
  snd (bestLoopP (getSearchDepth e) (Color_eqb (turn (game e)) White) e
         (shuffleArray rnd (moves (game e))) None
         (if Color_eqb (turn (game e)) White then NegInfinity else Infinity))
  = unprunedMinimax (getSearchDepth e) (Color_eqb (turn (game e)) White) e.
Proof.
  intros Hover.
  assert (exists d, getSearchDepth e = S d) as [d Hd]
    by (unfold getSearchDepth; destruct (difficulty e); eauto).
  rewrite Hd. cbn [unprunedMinimax]. rewrite Hover.
  destruct (Color_eqb _ White).
  - rewrite bestLoopP_max. replace (S d - 1)%nat with d by lia.
    apply foldl_max_Permutation, Permutation_map, shuffleArray_Permutation.
  - rewrite bestLoopP_min. replace (S d - 1)%nat with d by lia.
    apply foldl_min_Permutation, Permutation_map, shuffleArray_Permutation.
Qed.

End Window.

(** ** The tree engine behaves as chess.js is taken to *)

Module TreeFacts.
Import Tree.
#[local] Existing Instance engine.

Lemma findReply_Some i (l : list (Move * Pos)) :
  existsb (matchesInput i) (map fst l) = true ->
  exists m p, findReply i l = Some (m, p)
              /\ m ∈ map fst l /\ matchesInput i m = true.
Proof.
  induction l as [|[m p] l IH]; simpl; [done|].
  destruct (matchesInput i m) eqn:Hm; simpl.
  - intros _. exists m, p. repeat split; [left|done].
  - intros (m' & p' & ? & ? & ?)%IH. exists m', p'. repeat split; [done|by right|done].
Qed.

Lemma findReply_None i (l : list (Move * Pos)) :
  existsb (matchesInput i) (map fst l) = false -> findReply i l = None.
Proof.
  induction l as [|[m p] l IH]; simpl; [done|].
  destruct (matchesInput i m); simpl; [done|apply IH].
Qed.

Lemma tree_accepts : MoveAcceptsLegal.
Proof.
  intros g i (m & p & Hf & Hin & Hm)%findReply_Some.
  exists m, {| cur := p; trail := (m, cur g) :: trail g |}.
  repeat split; [|done|done].
  simpl. unfold t_move. by rewrite Hf.
Qed.

Lemma tree_rejects : MoveRejectsIllegal.
Proof.
  intros g i Hf%findReply_None. exists g.
  simpl. unfold t_move. by rewrite Hf.
Qed.

Lemma tree_keeps : ThrowKeepsState.
Proof.
  intros g i g'. simpl. unfold t_move.
  destruct (findReply i _) as [[m p]|]; [done|]. by intros [= ->].
Qed.

Lemma tree_restores : UndoRestores.
Proof.
  intros g i m g'. simpl. unfold t_move.
  destruct (findReply i _) as [[m' p]|]; [|done].
  intros [= -> <-]. by destruct g.
Qed.

Lemma tree_stalemate_draw : StalemateIsDraw.
Proof.
  intros g. simpl. unfold t_isDraw. by intros ->.
Qed.

End TreeFacts.

(** ** The evaluator and the win probability *)

Section Evaluator.
Context {RE : RulesEngine}.

(** C9.  On the standard starting position the evaluator returns exactly
    0: the material and the mirrored pawn and knight bonuses of the two
    sides cancel. *)
Theorem evaluateBoard_start (e : ChessEngine) :
  board (game e) = startBoard ->
  isCheckmate (game e) = false ->
  evaluateBoard e = Finite 0.
Proof.
  intros Hb Hmate. unfold evaluateBoard. rewrite Hmate, Hb.
  by destruct (isDraw (game e)).
Qed.

(** C4.  The evaluator looks at the terminal cases first: a checkmate
    scores minus infinity when White is mated (White to move) and plus
    infinity when Black is; a stalemate or draw that is not a checkmate
    scores exactly 0; the board is summed in neither case. *)
Theorem evaluateBoard_terminal (H : StalemateIsDraw) (e : ChessEngine) :
  (isCheckmate (game e) = true ->
     evaluateBoard e
     = match turn (game e) with White => NegInfinity | Black => Infinity end)
  /\ (isCheckmate (game e) = false ->
      isStalemate (game e) = true \/ isDraw (game e) = true ->
      evaluateBoard e = Finite 0).
Proof.
  unfold evaluateBoard. split.
  - by intros ->.
  - intros -> [Hs%H | Hd]; by rewrite ?Hs, ?Hd.
Qed.

(** C5.  The win probability is overridden at a terminal position before
    any sigmoid is taken: at checkmate the side to move gets 0 and the
    other side 100, at a stalemate or draw both get 50. *)
Theorem getWinProbability_terminal (H : StalemateIsDraw) (e : ChessEngine) :
  (isCheckmate (game e) = true ->
     getWinProbability e
     = match turn (game e) with
       | White => {| white := 0; black := 100 |}
       | Black => {| white := 100; black := 0 |}
       end)
  /\ (isCheckmate (game e) = false ->
      isStalemate (game e) = true \/ isDraw (game e) = true ->
      getWinProbability e = {| white := 50; black := 50 |}).
Proof.
  unfold getWinProbability. split.
  - by intros ->.
  - intros -> [Hs%H | Hd]; by rewrite ?Hs, ?Hd.
Qed.

(** C6.  At a position that is neither checkmate nor drawn the
    evaluation is a finite score [ev], White's percentage is
    [round (100 / (1 + 10 ^ (- ev / 400)))], Black's is 100 minus
    White's, and the two add up to 100. *)
Theorem getWinProbability_closure (e : ChessEngine) :
  isCheckmate (game e) = false ->
  isDraw (game e) = false ->
  exists ev,
    evaluateBoard e = Finite ev
    /\ white (getWinProbability e)
       = Math_round (100 / (1 + Rpower 10 (- IZR ev / 400)))%R
    /\ black (getWinProbability e) = 100 - white (getWinProbability e)
    /\ white (getWinProbability e) + black (getWinProbability e) = 100.
Proof.
  intros Hmate Hdraw. exists (boardScore (board (game e))).
  unfold getWinProbability, evaluateBoard. rewrite Hmate, Hdraw. simpl.
  repeat split; [|lia].
  f_equal. unfold Rdiv.
  assert (0 < Rpower 10 (- IZR (boardScore (board (game e))) * / 400))%R
    by apply exp_pos.
  field. lra.
Qed.

End Evaluator.

(** ** Captured pieces *)

Section Captures.
Context {RE : RulesEngine}.

Lemma getCapturedPieces_from (history : list Move) :
  forall acc,
    foldl (fun acc move =>
      match captured move with
      | Some c =>
          match color move with
          | White => {| captured_w := captured_w acc ++ [c];
                        captured_b := captured_b acc |}
          | Black => {| captured_w := captured_w acc;
                        captured_b := captured_b acc ++ [c] |}
          end
      | None => acc
      end) acc history
    = {| captured_w := captured_w acc ++ capturesBy White history;
         captured_b := captured_b acc ++ capturesBy Black history |}.
Proof.
  induction history as [|m h IH]; intros acc; simpl.
  - rewrite !app_nil_r. by destruct acc.
  - rewrite IH. unfold capturesBy; simpl.
    destruct (captured m) as [c|] eqn:Hc, (color m) eqn:Hcol; simpl;
      rewrite ?Hc, ?Hcol; simpl; by rewrite <- ?app_assoc.
Qed.

Lemma capturesBy_length (c : Color) (history : list Move) :
  length (capturesBy c history) = captureCount c history.
Proof.
  unfold capturesBy, captureCount.
  induction history as [|m h IH]; simpl; [done|].
  destruct (Color_eqb (color m) c), (captured m); simpl; by rewrite <- ?IH.
Qed.

(** C3, as the code has it.  [capturedPieces[c]] holds exactly the
    pieces captured by side [c] itself, in the order of the history, so
    its length is the number of history entries made by [c] that carry
    a captured piece. *)
Theorem capturedPieces_by_own_side (e : ChessEngine) :
  let st := getState e in
  captured_w (capturedPieces st) = capturesBy White (moveHistory st)
  /\ captured_b (capturedPieces st) = capturesBy Black (moveHistory st)
  /\ length (captured_w (capturedPieces st)) = captureCount White (moveHistory st)
  /\ length (captured_b (capturedPieces st)) = captureCount Black (moveHistory st).
Proof.
  simpl. unfold getCapturedPieces. rewrite getCapturedPieces_from. simpl.
  by rewrite !capturesBy_length.
Qed.

End Captures.

(** ** Moves submitted by [makeMove] *)

Section MakeMove.
Context {RE : RulesEngine}.

Lemma makeMove_unfold (a b : Square) promotion (e : ChessEngine) :
  makeMove a b promotion e
  = match move (game e) (submitted a b promotion) with
    | Moved m g' => Ok (Some m) (withGame e g')
    | Thrown g' => Ok None (withGame e g')
    end.
Proof.
  unfold makeMove, tryCatch, bind, game_move, submitted.
  by destruct (move _ _).
Qed.

(** C8.  A triple that no legal move answers to makes [makeMove] return
    null and leave the engine object, hence the whole session state, as
    it was; and whenever [makeMove] returns null the engine object is
    unchanged. *)
Theorem makeMove_illegal (rejects : MoveRejectsIllegal) (keeps : ThrowKeepsState)
    (a b : Square) promotion (e : ChessEngine) :
  (legalTriple (game e) a b promotion = false ->
     makeMove a b promotion e = Ok None e)
  /\ (forall e', makeMove a b promotion e = Ok None e' ->
        e' = e /\ getState e' = getState e).
Proof.
  rewrite makeMove_unfold. split.
  - intros Hill. destruct (rejects _ _ Hill) as [g' Hthrow].
    rewrite Hthrow. by rewrite (keeps _ _ _ Hthrow), withGame_game.
  - intros e'. destruct (move _ _) as [m g'|g'] eqn:Hmove; [done|].
    intros [= <-]. by rewrite (keeps _ _ _ Hmove), withGame_game.
Qed.

(** C10.  [makeMove] without a promotion argument submits the queen:
    it behaves as [makeMove] with ['q'], and when the pawn move from
    [a] to [b] is legal with every legal move between the two squares
    a promotion, the move made is the promotion to a queen. *)
Theorem makeMove_default_queen (accepts : MoveAcceptsLegal)
    (a b : Square) (e : ChessEngine) (q : Move) :
  q ∈ moves (game e) ->
  from q = a -> to q = b ->
  promotion q = Some Queen ->
  (forall m, m ∈ moves (game e) -> from m = a -> to m = b -> promotion m <> None) ->
  makeMove a b None e = makeMove a b (Some Queen) e
  /\ exists m g',
       move (game e) {| in_from := a; in_to := b;
                        in_promotion := Some Queen |} = Moved m g'
       /\ makeMove a b None e = Ok (Some m) (withGame e g')
       /\ m ∈ moves (game e)
       /\ from m = a /\ to m = b
       /\ promotion m = Some Queen.
Proof.
  intros Hq Hfrom Hto Hprom Hall. split; [done|].
  assert (existsb (matchesInput (submitted a b None)) (moves (game e)) = true)
    as Hex.
  { apply existsb_exists. exists q. split; [by apply list_elem_of_In|].
    unfold matchesInput, submitted; simpl.
    by rewrite Hfrom, Hto, Hprom, !String.eqb_refl. }
  destruct (accepts _ _ Hex) as (m & g' & Hmove & Hin & Hm).
  exists m, g'. rewrite makeMove_unfold, Hmove.
  unfold matchesInput, submitted in Hm; simpl in Hm.
  apply andb_prop in Hm as [[Hf%String.eqb_eq Ht%String.eqb_eq]%andb_prop Hp].
  repeat split; try done.
  specialize (Hall m Hin (eq_sym Hf) (eq_sym Ht)).
  destruct (promotion m) as [[]|]; done.
Qed.

End MakeMove.

(** ** The search *)

Section SearchClaims.
Context {RE : RulesEngine}.
Hypothesis accepts : MoveAcceptsLegal.
Hypothesis restores : UndoRestores.

(** C7.  Every call of [minimax], whatever its window and whether or not
    a cutoff ends one of its loops, returns on the engine object it was
    called on, and so does [getBestMove]: each move made is taken back
    before the call returns. *)
Theorem search_restores_position :
  (forall depth alpha beta isMaximizing (e : ChessEngine),
     exists v, minimax depth alpha beta isMaximizing e = Ok v e)
  /\ (forall rnd (e : ChessEngine), exists r, getBestMove rnd e = Ok r e).
Proof using accepts restores.
  split.
  - intros. eexists. by apply minimax_run.
  - intros. eexists. by apply getBestMove_run.
Qed.

(** C1, as the code has it.  Called with the full window, as
    [getBestMove] calls it, [minimax] returns the value of unpruned
    minimax at the same depth; with any window its value and the
    unpruned one agree once both are confined to the window; and on a
    position that is not over, [bestValue] ends as the unpruned value
    at the depth of the difficulty. *)
Theorem search_value_unpruned :
  (forall depth isMaximizing (e : ChessEngine),
     minimax depth NegInfinity Infinity isMaximizing e
     = Ok (unprunedMinimax depth isMaximizing e) e)
  /\ (forall depth alpha beta isMaximizing (e : ChessEngine),
       exists v, minimax depth alpha beta isMaximizing e = Ok v e
                 /\ Num.clamp alpha beta v
                    = Num.clamp alpha beta (unprunedMinimax depth isMaximizing e))
  /\ (forall rnd (e : ChessEngine),
       isGameOver (game e) = false ->
       exists bestMove,
         getBestMoveLocals rnd e
         = Ok (bestMove,
               unprunedMinimax (getSearchDepth e)
                               (Color_eqb (turn (game e)) White) e) e).
Proof using accepts restores.
  split; [|split].
  - intros. by rewrite minimax_run, minimaxP_full.
  - intros. eexists. split; [by apply minimax_run|apply minimaxP_window].
  - intros rnd e Hover. rewrite getBestMoveLocals_run by done.
    rewrite <- (bestLoopP_value rnd e Hover).
    eexists. by rewrite <- surjective_pairing.
Qed.

(** When White is to move and every legal move leads to a position whose
    value is minus infinity, no candidate is strictly better than the
    initial [bestValue] and [bestMove] stays null. *)
Lemma bestLoopP_all_lost depth (e : ChessEngine) ms :
  (forall m, m ∈ ms ->
     unprunedMinimax (depth - 1)%nat false (after e m) = NegInfinity) ->
  bestLoopP depth true e ms None NegInfinity = (None, NegInfinity).
Proof.
  induction ms as [|m ms IH]; intros Hall; [done|].
  cbn [bestLoopP negb]. rewrite minimaxP_full, Hall by left. simpl.
  apply IH. intros m' Hm'. apply Hall. by right.
Qed.

Lemma getBestMove_null_when_all_lost rnd (e : ChessEngine) :
  turn (game e) = White ->
  (forall m, m ∈ moves (game e) ->
     unprunedMinimax (getSearchDepth e - 1)%nat false (after e m) = NegInfinity) ->
  getBestMove rnd e = Ok None e.
Proof using accepts restores.
  intros Hturn Hall. rewrite getBestMove_run by done. rewrite Hturn. simpl.
  rewrite bestLoopP_all_lost; [done|].
  intros m Hm. apply Hall. by rewrite <- (shuffleArray_Permutation rnd).
Qed.

End SearchClaims.

(** ** Concrete positions *)

Module Examples.
Import Tree.
#[local] Existing Instance engine.

Example startBoard_score : boardScore startBoard = 0.
Proof. reflexivity. Qed.

Lemma evaluateBoard_start_witness :
  evaluateBoard (engineAt medium start) = Finite 0.
Proof. apply evaluateBoard_start; reflexivity. Defined.

Lemma evaluateBoard_terminal_witness :
  evaluateBoard (engineAt medium trapRh1) = NegInfinity
  /\ evaluateBoard (engineAt medium stale) = Finite 0.
Proof.
  split.
  - apply (proj1 (evaluateBoard_terminal TreeFacts.tree_stalemate_draw
                    (engineAt medium trapRh1))).
    reflexivity.
  - apply (proj2 (evaluateBoard_terminal TreeFacts.tree_stalemate_draw
                    (engineAt medium stale))).
    + reflexivity.
    + left. reflexivity.
Defined.

Lemma getWinProbability_terminal_witness :
  getWinProbability (engineAt medium trapRh1) = {| white := 0; black := 100 |}
  /\ getWinProbability (engineAt medium stale) = {| white := 50; black := 50 |}.
Proof.
  split.
  - apply (proj1 (getWinProbability_terminal TreeFacts.tree_stalemate_draw
                    (engineAt medium trapRh1))).
    reflexivity.
  - apply (proj2 (getWinProbability_terminal TreeFacts.tree_stalemate_draw
                    (engineAt medium stale))).
    + reflexivity.
    + left. reflexivity.
Defined.

Lemma getWinProbability_closure_witness :
  exists ev,
    evaluateBoard (engineAt medium start) = Finite ev
    /\ white (getWinProbability (engineAt medium start))
       = Math_round (100 / (1 + Rpower 10 (- IZR ev / 400)))%R
    /\ black (getWinProbability (engineAt medium start))
       = 100 - white (getWinProbability (engineAt medium start))
    /\ white (getWinProbability (engineAt medium start))
       + black (getWinProbability (engineAt medium start)) = 100.
Proof. apply getWinProbability_closure; reflexivity. Defined.

Lemma makeMove_illegal_witness :
  makeMove "e2" "e5" None (engineAt medium start)
  = Ok None (engineAt medium start).
Proof.
  apply (proj1 (makeMove_illegal TreeFacts.tree_rejects TreeFacts.tree_keeps
                  "e2" "e5" None (engineAt medium start))).
  reflexivity.
Defined.

Lemma promo_moves_promote (m : Move) :
  m ∈ moves (game (engineAt medium promo)) ->
  from m = "a7" -> to m = "a8" -> promotion m <> None.
Proof.
  simpl. rewrite !elem_of_cons, elem_of_nil.
  intros [->|[->|[->|[->|[->|[]]]]]]; done.
Qed.

Lemma makeMove_default_queen_witness :
  exists m g',
    move (game (engineAt medium promo))
         {| in_from := "a7"; in_to := "a8"; in_promotion := Some Queen |}
    = Moved m g'
    /\ makeMove "a7" "a8" None (engineAt medium promo)
       = Ok (Some m) (withGame (engineAt medium promo) g')
    /\ m ∈ moves (game (engineAt medium promo))
    /\ from m = "a7" /\ to m = "a8"
    /\ promotion m = Some Queen.
Proof.
  apply (proj2 (makeMove_default_queen TreeFacts.tree_accepts "a7" "a8"
                  (engineAt medium promo) a8Q
                  ltac:(simpl; rewrite !elem_of_cons; tauto)
                  eq_refl eq_refl eq_refl promo_moves_promote)).
Defined.

Lemma search_restores_position_witness :
  (exists v, minimax 2 NegInfinity (Finite 80) false (engineAt hard cutM)
             = Ok v (engineAt hard cutM))
  /\ (exists r, getBestMove (fun _ => 0%nat) (engineAt hard cutRoot)
                = Ok r (engineAt hard cutRoot)).
Proof.
  split;
    apply (search_restores_position TreeFacts.tree_accepts TreeFacts.tree_restores).
Defined.

Lemma search_value_unpruned_witness :
  exists bestMove,
    getBestMoveLocals (fun _ => 0%nat) (engineAt hard cutRoot)
    = Ok (bestMove, unprunedMinimax 3 true (engineAt hard cutRoot))
         (engineAt hard cutRoot).
Proof.
  apply (proj2 (proj2 (search_value_unpruned TreeFacts.tree_accepts TreeFacts.tree_restores))
           (fun _ => 0%nat) (engineAt hard cutRoot)).
  reflexivity.
Defined.

(** C1, as stated, fails inside the tree.  In the search of [cutRoot]
    at depth 3 the minimizing node [atM] scores its first child [atA]
    as 80, so it calls [minimax] on its second child [atB] with the
    window from minus infinity to 80.  That call stops at the first
    move, which scores 100, and returns 100; unpruned minimax of [atB]
    at the same depth is 120.  At the root the claim needs the game not
    to be over: on the stalemate [stale] there is no move to try,
    [bestValue] stays plus infinity, and unpruned minimax is 0. *)
Lemma minimax_cutoff_is_not_unpruned :
  minimax 1 NegInfinity Infinity true atA = Ok (Finite 80) atA
  /\ minimax 1 NegInfinity (Finite 80) true atB = Ok (Finite 100) atB
  /\ unprunedMinimax 1 true atB = Finite 120
  /\ ~ (forall depth alpha beta isMaximizing (e : ChessEngine),
          minimax depth alpha beta isMaximizing e
          = Ok (unprunedMinimax depth isMaximizing e) e)
  /\ getBestMoveLocals (fun _ => 0%nat) (engineAt medium stale)
     = Ok (None, Infinity) (engineAt medium stale)
  /\ unprunedMinimax 2 false (engineAt medium stale) = Finite 0.
Proof.
  assert (minimax 1 NegInfinity (Finite 80) true atB = Ok (Finite 100) atB)
    as H by (vm_compute; reflexivity).
  split; [vm_compute; reflexivity|].
  split; [exact H|].
  split; [vm_compute; reflexivity|].
  split; [|split; vm_compute; reflexivity].
  intros Hall. rewrite Hall in H. vm_compute in H. discriminate H.
Qed.

(** C2 fails on the code.  White to move has the one legal move Kb1,
    after which Rh1 mates; the game is not over.  At the default
    difficulty the candidate scores minus infinity, which is not
    strictly better than the initial [bestValue], and [getBestMove]
    returns null although a legal move exists. *)
Theorem getBestMove_null_with_legal_move rnd :
  isGameOver (game (engineAt medium trap)) = false
  /\ moves (game (engineAt medium trap))
     = [mv White "a1" "b1" King None None "Kb1"]
  /\ minimax 1 NegInfinity Infinity false
       (after (engineAt medium trap) (mv White "a1" "b1" King None None "Kb1"))
     = Ok NegInfinity
          (after (engineAt medium trap) (mv White "a1" "b1" King None None "Kb1"))
  /\ getBestMove rnd (engineAt medium trap) = Ok None (engineAt medium trap).
Proof. repeat split; vm_compute; reflexivity. Qed.

(** C3, as stated, fails after 1. e4 d5 2. exd5: White has made the one
    capture of the game, [capturedPieces.w] holds the pawn, and Black,
    the side opposite to White, has captured nothing. *)
Lemma capturedPieces_w_not_by_Black :
  let st := getState sessionExd5 in
  map san (moveHistory st) = ["e4"; "d5"; "exd5"]
  /\ captured_w (capturedPieces st) = [Pawn]
  /\ captured_b (capturedPieces st) = []
  /\ capturesBy Black (moveHistory st) = []
  /\ captured_w (capturedPieces st) <> capturesBy Black (moveHistory st)
  /\ length (captured_w (capturedPieces st))
     <> captureCount Black (moveHistory st).
Proof.
  cbv zeta. do 4 (split; [vm_compute; reflexivity|]).
  split; vm_compute; discriminate.
Qed.

End Examples.

(** * Further properties *)

(** ** The move [getBestMove] returns *)

Ltac cmp_solve :=
  intros; unfold Num.clamp, Num.gtb, Num.ltb in *;
  repeat (match goal with x : number |- _ => destruct x end;
          autorewrite with num in *; simpl in *; try discriminate);
  rewrite ?negb_true_iff, ?negb_false_iff in *;
  num_prep; num_close.

Lemma better_trans isMaximizing a b c :
  better isMaximizing a b = true -> better isMaximizing b c = true ->
  better isMaximizing a c = true.
Proof. unfold better. destruct isMaximizing; cmp_solve. Qed.

Lemma better_after_worse isMaximizing a b c :
  better isMaximizing a b = true -> better isMaximizing c b = false ->
  better isMaximizing a c = true.
Proof. unfold better. destruct isMaximizing; cmp_solve. Qed.

Lemma better_irrefl_false isMaximizing a b :
  better isMaximizing a b = true -> better isMaximizing b a = false.
Proof. unfold better. destruct isMaximizing; cmp_solve. Qed.

Lemma better_initial isMaximizing v :
  better isMaximizing v (initialBest isMaximizing) = false <->
  v = initialBest isMaximizing.
Proof.
  unfold better, initialBest. destruct isMaximizing, v; simpl; split; done.
Qed.

Section ChoiceFacts.
Context {RE : RulesEngine}.

Lemma bestLoopP_step depth isMaximizing (e : ChessEngine) m ms bestMove bestValue :
  bestLoopP depth isMaximizing e (m :: ms) bestMove bestValue
  = if better isMaximizing (childValue depth isMaximizing e m) bestValue
    then bestLoopP depth isMaximizing e ms (Some m)
                   (childValue depth isMaximizing e m)
    else bestLoopP depth isMaximizing e ms bestMove bestValue.
Proof.
  cbn [bestLoopP]. rewrite minimaxP_full. unfold better, childValue.
  by destruct isMaximizing.
Qed.

(** What the loop ends with: either nothing improved on the initial
    locals, or the result is a move of the list that strictly improves on
    everything before it and is not improved on by anything after it. *)
Lemma bestLoopP_trace depth isMaximizing (e : ChessEngine) ms :
  forall bestMove bestValue,
    let r := bestLoopP depth isMaximizing e ms bestMove bestValue in
    (r = (bestMove, bestValue)
     /\ Forall (fun m => better isMaximizing
                           (childValue depth isMaximizing e m) bestValue = false) ms)
    \/ (exists l1 m l2,
          ms = l1 ++ m :: l2
          /\ r = (Some m, childValue depth isMaximizing e m)
          /\ better isMaximizing (childValue depth isMaximizing e m) bestValue = true
          /\ Forall (fun m' => better isMaximizing
                                 (childValue depth isMaximizing e m)
                                 (childValue depth isMaximizing e m') = true) l1
          /\ Forall (fun m' => better isMaximizing
                                 (childValue depth isMaximizing e m')
                                 (childValue depth isMaximizing e m) = false) l2).
Proof.
  induction ms as [|x ms IH]; intros bestMove bestValue r.
  - left. by split.
  - subst r. rewrite bestLoopP_step.
    destruct (better isMaximizing (childValue depth isMaximizing e x) bestValue)
      eqn:Hx.
    + right.
      destruct (IH (Some x) (childValue depth isMaximizing e x))
        as [[Hr Hall]|(l1 & m & l2 & -> & Hr & Hm & H1 & H2)].
      * exists [], x, ms. by repeat split.
      * exists (x :: l1), m, l2. repeat split; [done| |by constructor|done].
        by eapply better_trans.
    + destruct (IH bestMove bestValue)
        as [[Hr Hall]|(l1 & m & l2 & -> & Hr & Hm & H1 & H2)].
      * left. split; [done|by constructor].
      * right. exists (x :: l1), m, l2. repeat split; [done|done| |done].
        constructor; [|done]. by eapply better_after_worse.
Qed.

End ChoiceFacts.

Section ChoiceSearch.
Context {RE : RulesEngine}.
Hypothesis accepts : MoveAcceptsLegal.
Hypothesis restores : UndoRestores.

Lemma better_refl_false isMaximizing v : better isMaximizing v v = false.
Proof. unfold better. destruct isMaximizing; cmp_solve. Qed.

(** [getBestMove] in terms of the order in which the shuffle presents the
    legal moves. *)
Lemma getBestMove_trace rnd (e e' : ChessEngine) r :
  getBestMove rnd e = Ok r e' ->
  let d := getSearchDepth e in
  let mx := rootIsMaximizing e in
  let ms := shuffleArray rnd (moves (game e)) in
  e' = e
  /\ ((r = None
       /\ Forall (fun m => childValue d mx e m = initialBest mx) ms)
      \/ (exists l1 m l2,
            ms = l1 ++ m :: l2
            /\ r = Some m
            /\ better mx (childValue d mx e m) (initialBest mx) = true
            /\ Forall (fun m' => better mx (childValue d mx e m)
                                        (childValue d mx e m') = true) l1
            /\ Forall (fun m' => better mx (childValue d mx e m')
                                        (childValue d mx e m) = false) l2)).
Proof using accepts restores.
  rewrite getBestMove_run by done. intros [= <- <-]. split; [done|].
  fold (rootIsMaximizing e). fold (initialBest (rootIsMaximizing e)).
  destruct (bestLoopP_trace (getSearchDepth e) (rootIsMaximizing e) e
              (shuffleArray rnd (moves (game e))) None
              (initialBest (rootIsMaximizing e)))
    as [[Hr Hall]|(l1 & m & l2 & Hms & Hr & Hm & H1 & H2)].
  - left. rewrite Hr. split; [done|].
    eapply Forall_impl; [exact Hall|]. intros m. apply better_initial.
  - right. exists l1, m, l2. rewrite Hr. by repeat split.
Qed.


(** X2.  Ties keep the earlier candidate: in the order in which the
    shuffle presents the legal moves, every move tried before the one
    returned leads to a strictly worse value, so the move returned is
    the first of the best. *)
Theorem getBestMove_first_of_best rnd (e e' : ChessEngine) (m : Move) :
  getBestMove rnd e = Ok (Some m) e' ->
  let d := getSearchDepth e in
  let mx := rootIsMaximizing e in
  exists l1 l2,
    shuffleArray rnd (moves (game e)) = l1 ++ m :: l2
    /\ (forall m', m' ∈ l1 ->
          better mx (childValue d mx e m) (childValue d mx e m') = true)
    /\ (forall m', m' ∈ l2 ->
          better mx (childValue d mx e m') (childValue d mx e m) = false).
Proof using accepts restores.
  intros Hrun d mx.
  destruct (getBestMove_trace _ _ _ _ Hrun)
    as [_ [[? _]|(l1 & m0 & l2 & Hms & [= <-] & Hm & H1 & H2)]]; [done|].
  exists l1, l2. rewrite Forall_forall in H1, H2. by repeat split.
Qed.

(** X3.  [getBestMove] returns null exactly when every legal move leads
    to a position whose unpruned value at the remaining depth is the
    initial [bestValue]: minus infinity with White to move, plus
    infinity with Black to move.  No legal move is one such case. *)
Theorem getBestMove_null_iff rnd (e : ChessEngine) :
  let d := getSearchDepth e in
  let mx := rootIsMaximizing e in
  getBestMove rnd e = Ok None e
  <-> (forall m, m ∈ moves (game e) -> childValue d mx e m = initialBest mx).
Proof using accepts restores.
  intros d mx.
  pose proof (getBestMove_run accepts restores rnd e) as Hrun.
  destruct (getBestMove_trace _ _ _ _ Hrun)
    as [_ [[Hr Hall]|(l1 & m & l2 & Hms & Hr & Hm & _)]].
  - rewrite Hrun, Hr. split; [|done]. intros _ m Hm.
    rewrite Forall_forall in Hall. apply Hall.
    by rewrite shuffleArray_Permutation.
  - rewrite Hrun, Hr. split; [done|]. intros Hall. exfalso.
    assert (m ∈ moves (game e)) as Hin.
    { rewrite <- (shuffleArray_Permutation rnd), Hms.
    apply elem_of_app. right. left. }
    apply Hall in Hin. fold d mx in Hm. rewrite Hin in Hm.
    by rewrite better_refl_false in Hm.
Qed.

Lemma matchesInput_submitted (m : Move) :
  matchesInput (submitted (from m) (to m) (promotion m)) m = true.
Proof.
  unfold matchesInput, submitted; simpl.
  rewrite !String.eqb_refl; simpl.
  destruct (promotion m) as [[]|]; done.
Qed.

(** X4.  The move [getBestMove] returns is accepted by [makeMove] when
    submitted the way [makeComputerMove] submits it, with its from, to
    and promotion fields: [makeMove] returns a legal move between the
    same two squares, never null. *)
Theorem getBestMove_then_makeMove rnd (e e' : ChessEngine) (m : Move) :
  getBestMove rnd e = Ok (Some m) e' ->
  exists m' e'',
    makeMove (from m) (to m) (promotion m) e' = Ok (Some m') e''
    /\ m' ∈ moves (game e)
    /\ from m' = from m /\ to m' = to m.
Proof using accepts restores.
  intros Hrun.
  destruct (getBestMove_trace _ _ _ _ Hrun)
    as [-> [[? _]|(l1 & m0 & l2 & Hms & [= <-] & _)]]; [done|].
  assert (m ∈ moves (game e)) as Hin.
  { rewrite <- (shuffleArray_Permutation rnd), Hms.
    apply elem_of_app. right. left. }
  assert (existsb (matchesInput (submitted (from m) (to m) (promotion m)))
                  (moves (game e)) = true) as Hex.
  { apply existsb_exists. exists m. split; [by apply list_elem_of_In|].
    apply matchesInput_submitted. }
  destruct (accepts _ _ Hex) as (m' & g' & Hmove & Hin' & Hm').
  exists m', (withGame e g'). rewrite makeMove_unfold, Hmove.
  unfold matchesInput, submitted in Hm'; simpl in Hm'.
  apply andb_prop in Hm' as [[Hf%String.eqb_eq Ht%String.eqb_eq]%andb_prop _].
  by repeat split.
Qed.

End ChoiceSearch.

(** ** [makeMove] and [undoMove] *)

Section MakeUndo.
Context {RE : RulesEngine}.

(** X5.  [makeMove] never throws, and it returns a move exactly for the
    triples some legal move answers to; the move returned is then a
    legal move between the two squares given. *)
Theorem makeMove_succeeds_iff_legal
    (accepts : MoveAcceptsLegal) (rejects : MoveRejectsIllegal)
    (a b : Square) promotion (e : ChessEngine) :
  (exists r e', makeMove a b promotion e = Ok r e')
  /\ ((exists m e', makeMove a b promotion e = Ok (Some m) e')
      <-> legalTriple (game e) a b promotion = true)
  /\ (forall m e', makeMove a b promotion e = Ok (Some m) e' ->
        m ∈ moves (game e) /\ from m = a /\ to m = b).
Proof.
  rewrite makeMove_unfold. unfold legalTriple.
  destruct (existsb _ (moves (game e))) eqn:Hex.
  - destruct (accepts _ _ Hex) as (m & g' & Hmove & Hin & Hm).
    rewrite Hmove.
    unfold matchesInput, submitted in Hm; simpl in Hm.
    apply andb_prop in Hm as [[Hf%String.eqb_eq Ht%String.eqb_eq]%andb_prop _].
    split; [by eauto|]. split; [split; by eauto|].
    by intros ? ? [= <- _].
  - destruct (rejects _ _ Hex) as [g' Hmove]. rewrite Hmove.
    split; [by eauto|]. split; [|done].
    split; [by intros (? & ? & ?)|done].
Qed.

(** X6.  [undoMove] right after a successful [makeMove] returns the move
    that was made and puts the engine object back as it was before the
    move, so the whole session state is restored. *)
Theorem makeMove_then_undoMove (restores : UndoRestores)
    (a b : Square) promotion (e e' : ChessEngine) (m : Move) :
  makeMove a b promotion e = Ok (Some m) e' ->
  undoMove e' = Ok (Some m) e.
Proof.
  rewrite makeMove_unfold.
  destruct (move _ _) as [m' g'|g'] eqn:Hmove; [|done].
  intros [= -> <-]. unfold undoMove, game_undo. simpl.
  by rewrite (restores _ _ _ _ Hmove), withGame_withGame, withGame_game.
Qed.

End MakeUndo.

(** ** The evaluator is antisymmetric *)

Lemma boardScore_row (b : Board) (row : nat) (cols : list nat) :
  forall score,
    foldl (fun score col =>
      match at2 None b row col with
      | Some p => score + pieceScore row col p
      | None => score
      end) score cols
    = score + foldr (fun col acc => cellScore b row col + acc) 0 cols.
Proof.
  induction cols as [|c cols IH]; intros score; simpl; [lia|].
  rewrite IH. unfold cellScore. destruct (at2 None b row c); lia.
Qed.

Lemma boardScore_rows (b : Board) (rows : list nat) :
  forall score,
    foldl (fun score row =>
      foldl (fun score col =>
        match at2 None b row col with
        | Some p => score + pieceScore row col p
        | None => score
        end) score (seq 0 8)) score rows
    = score + foldr (fun row acc =>
                foldr (fun col acc => cellScore b row col + acc) 0 (seq 0 8) + acc)
              0 rows.
Proof.
  induction rows as [|r rows IH]; intros score; cbn [foldl foldr]; [lia|].
  rewrite IH, boardScore_row. lia.
Qed.

Lemma pieceScore_flip (row col : nat) (p : Piece) :
  (row <= 7)%nat ->
  pieceScore row col (flipPiece p) = - pieceScore (7 - row) col p.
Proof.
  intros Hrow. unfold pieceScore, flipPiece; simpl.
  replace (7 - (7 - row))%nat with row by lia.
  destruct (type p), (pcolor p); simpl; lia.
Qed.

Lemma at2_mirrorBoard (b : Board) (row col : nat) :
  (row < 8)%nat -> (col < 8)%nat ->
  at2 None (mirrorBoard b) row col = flipPiece <$> at2 None b (7 - row) col.
Proof.
  intros Hrow Hcol.
  do 8 (destruct row as [|row]; [
    do 8 (destruct col as [|col]; [reflexivity|]); lia|]).
  lia.
Qed.

Lemma cellScore_mirrorBoard (b : Board) (row col : nat) :
  (row < 8)%nat -> (col < 8)%nat ->
  cellScore (mirrorBoard b) row col = - cellScore b (7 - row) col.
Proof.
  intros Hrow Hcol. unfold cellScore. rewrite at2_mirrorBoard by done.
  destruct (at2 None b (7 - row) col) as [p|]; simpl; [|done].
  apply pieceScore_flip. lia.
Qed.

Lemma boardScore_mirrorBoard (b : Board) :
  boardScore (mirrorBoard b) = - boardScore b.
Proof.
  unfold boardScore. rewrite !boardScore_rows.
  cbn [seq foldr]. rewrite !cellScore_mirrorBoard by lia.
  cbn [Nat.sub]. lia.
Qed.

Section Antisymmetry.
Context {RE : RulesEngine}.

(** X7.  Seen from the other side a position scores the opposite: when
    the board of one engine is the mirrored, colour-swapped board of
    another, the other side is to move and the checkmate and draw flags
    agree, [evaluateBoard] on the one is minus [evaluateBoard] on the
    other. *)
Theorem evaluateBoard_mirror (e e' : ChessEngine) :
  board (game e') = mirrorBoard (board (game e)) ->
  turn (game e') = flipColor (turn (game e)) ->
  isCheckmate (game e') = isCheckmate (game e) ->
  isDraw (game e') = isDraw (game e) ->
  evaluateBoard e' = negate (evaluateBoard e).
Proof.
  intros Hb Ht Hm Hd. unfold evaluateBoard. rewrite Hb, Ht, Hm, Hd.
  destruct (isCheckmate (game e)); [by destruct (turn (game e))|].
  destruct (isDraw (game e)); [done|].
  simpl. by rewrite boardScore_mirrorBoard.
Qed.

End Antisymmetry.

(** ** The win probability as a function of the evaluation *)

Lemma Math_round_mono (x y : R) : (x <= y)%R -> Math_round x <= Math_round y.
Proof.
  intros Hxy. unfold Math_round.
  destruct (base_Int_part (x + / 2)) as [Hx _].
  destruct (base_Int_part (y + / 2)) as [_ Hy].
  apply Z.lt_succ_r, lt_IZR. rewrite succ_IZR. lra.
Qed.

Lemma Math_round_IZR (z : Z) : Math_round (IZR z) = z.
Proof.
  unfold Math_round. symmetry. apply Int_part_spec. lra.
Qed.

Lemma sigmoid_Finite_range (z : Z) : (0 < sigmoid (Finite z) < 1)%R.
Proof.
  simpl. assert (0 < Rpower 10 (- IZR z / 400))%R as Hp by apply exp_pos.
  assert (0 < / (1 + Rpower 10 (- IZR z / 400)))%R
    by (apply Rinv_0_lt_compat; lra).
  assert (/ (1 + Rpower 10 (- IZR z / 400)) < / 1)%R
    by (apply Rinv_lt_contravar; lra).
  rewrite Rinv_1 in *. unfold Rdiv. lra.
Qed.

Lemma sigmoid_Finite_mono (x y : Z) :
  x <= y -> (sigmoid (Finite x) <= sigmoid (Finite y))%R.
Proof.
  intros Hxy%IZR_le. simpl.
  assert (0 < Rpower 10 (- IZR y / 400))%R as Hy by apply exp_pos.
  assert (Rpower 10 (- IZR y / 400) <= Rpower 10 (- IZR x / 400))%R as Hle
    by (apply Rle_Rpower; lra).
  unfold Rdiv. rewrite !Rmult_1_l. apply Rinv_le_contravar; lra.
Qed.

Lemma sigmoid_zero : sigmoid (Finite 0) = (/ 2)%R.
Proof.
  simpl. replace (- 0 / 400)%R with 0%R by lra.
  rewrite Rpower_O by lra. lra.
Qed.

Section WinProbability.
Context {RE : RulesEngine}.

(** Away from checkmate White's percentage is the rounded sigmoid of the
    evaluation, also on a draw, where both are 50. *)
Lemma white_of_evaluation (e : ChessEngine) (ev : Z) :
  isCheckmate (game e) = false ->
  evaluateBoard e = Finite ev ->
  white (getWinProbability e) = Math_round (sigmoid (Finite ev) * 100)%R
  /\ black (getWinProbability e) = 100 - white (getWinProbability e).
Proof.
  unfold getWinProbability, evaluateBoard. intros ->.
  destruct (isDraw (game e)).
  - intros [= <-]. rewrite sigmoid_zero. simpl. split; [|done].
    replace (/ 2 * 100)%R with (IZR 50) by lra. by rewrite Math_round_IZR.
  - intros [= <-]. by simpl.
Qed.

(** X8.  On every position, terminal or not, both percentages lie
    between 0 and 100 and add up to 100. *)
Theorem getWinProbability_range (e : ChessEngine) :
  0 <= white (getWinProbability e) <= 100
  /\ 0 <= black (getWinProbability e) <= 100
  /\ white (getWinProbability e) + black (getWinProbability e) = 100.
Proof.
  unfold getWinProbability.
  destruct (isCheckmate (game e)); [destruct (turn (game e)); simpl; lia|].
  destruct (isDraw (game e)); [simpl; lia|].
  cbn [white black].
  assert (0 <= Math_round (sigmoid (evaluateBoard e) * 100)%R <= 100); [|lia].
  assert (0 <= sigmoid (evaluateBoard e) <= 1)%R as Hs.
  { destruct (evaluateBoard e) as [|z|]; [simpl; lra| |simpl; lra].
    pose proof (sigmoid_Finite_range z). lra. }
  split.
  - trans (Math_round (IZR 0)); [by rewrite Math_round_IZR|].
    apply Math_round_mono. lra.
  - trans (Math_round (IZR 100)); [|by rewrite Math_round_IZR].
    apply Math_round_mono. lra.
Qed.

(** X9.  Away from checkmate the percentages follow the evaluation: a
    position with the higher evaluation gives White at least as high a
    percentage and Black at most as high a one. *)
Theorem getWinProbability_monotone (e1 e2 : ChessEngine) (x y : Z) :
  isCheckmate (game e1) = false -> isCheckmate (game e2) = false ->
  evaluateBoard e1 = Finite x -> evaluateBoard e2 = Finite y ->
  x <= y ->
  white (getWinProbability e1) <= white (getWinProbability e2)
  /\ black (getWinProbability e2) <= black (getWinProbability e1).
Proof.
  intros H1 H2 Hx Hy Hxy.
  destruct (white_of_evaluation e1 x H1 Hx) as [Hw1 Hb1].
  destruct (white_of_evaluation e2 y H2 Hy) as [Hw2 Hb2].
  assert (white (getWinProbability e1) <= white (getWinProbability e2)); [|lia].
  rewrite Hw1, Hw2. apply Math_round_mono.
  pose proof (sigmoid_Finite_mono x y Hxy). lra.
Qed.

(** X10.  A position that is not a checkmate and evaluates to 0, drawn or
    balanced, shows 50 to 50; a non-negative evaluation gives White at
    least 50 and a non-positive one at most 50. *)
Theorem getWinProbability_balance (e : ChessEngine) (ev : Z) :
  isCheckmate (game e) = false ->
  evaluateBoard e = Finite ev ->
  (ev = 0 -> getWinProbability e = {| white := 50; black := 50 |})
  /\ (0 <= ev -> 50 <= white (getWinProbability e))
  /\ (ev <= 0 -> white (getWinProbability e) <= 50).
Proof.
  intros Hmate Hev.
  destruct (white_of_evaluation e ev Hmate Hev) as [Hw Hb].
  assert (Math_round (sigmoid (Finite 0) * 100)%R = 50) as H50.
  { rewrite sigmoid_zero. replace (/ 2 * 100)%R with (IZR 50) by lra.
    apply Math_round_IZR. }
  split; [|split].
  - intros ->. rewrite H50 in Hw.
    destruct (getWinProbability e) as [w b]; simpl in *. f_equal; lia.
  - intros Hpos. rewrite Hw, <- H50. apply Math_round_mono.
    pose proof (sigmoid_Finite_mono 0 ev Hpos). lra.
  - intros Hneg. rewrite Hw, <- H50. apply Math_round_mono.
    pose proof (sigmoid_Finite_mono ev 0 Hneg). lra.
Qed.

End WinProbability.

(** ** Squares and coordinates *)

Module CoordsFacts.
Import Coords.

Lemma toString_rank (r : Z) : 0 <= r <= 7 -> toString (8 - r) = [56 - r].
Proof.
  intros Hr.
  assert (r = 0 \/ r = 1 \/ r = 2 \/ r = 3 \/ r = 4 \/ r = 5 \/ r = 6 \/ r = 7)
    as Hcases by lia.
  repeat (destruct Hcases as [->|Hcases]; [reflexivity|]). by subst.
Qed.

Lemma coordsToSquare_name (r c : Z) :
  0 <= r <= 7 -> 0 <= c <= 7 -> coordsToSquare r c = [97 + c; 56 - r].
Proof.
  intros Hr Hc. unfold coordsToSquare, fromCharCode.
  rewrite toString_rank by done. by rewrite Z.mod_small by lia.
Qed.

(** X11.  For a row and a column from 0 to 7, [coordsToSquare] gives the
    two-character name made of the file letter a to h and the rank digit
    8 down to 1, and [squareToCoords] takes that name back to the same
    row and column. *)
Theorem squareToCoords_coordsToSquare (r c : Z) :
  0 <= r <= 7 -> 0 <= c <= 7 ->
  coordsToSquare r c = [97 + c; 56 - r]
  /\ squareToCoords (coordsToSquare r c) = {| row := Some r; col := Some c |}.
Proof.
  intros Hr Hc. pose proof (coordsToSquare_name r c Hr Hc) as Heq.
  split; [done|]. rewrite Heq. unfold squareToCoords, parseIntUnit. simpl.
  destruct (Z.leb_spec 48 (56 - r)), (Z.leb_spec (56 - r) 57); try lia.
  simpl. f_equal; f_equal; lia.
Qed.


(** X13.  A two-character square name, file a to h and rank 1 to 8, is
    what [coordsToSquare] gives back on the row and column that
    [squareToCoords] reads from it. *)
Theorem coordsToSquare_squareToCoords (f d : Z) :
  97 <= f <= 104 -> 49 <= d <= 56 ->
  exists r c,
    squareToCoords [f; d] = {| row := Some r; col := Some c |}
    /\ coordsToSquare r c = [f; d].
Proof.
  intros Hf Hd. exists (8 - (d - 48)), (f - 97). split.
  - unfold squareToCoords, parseIntUnit. simpl.
    destruct (Z.leb_spec 48 d), (Z.leb_spec d 57); try lia. done.
  - rewrite coordsToSquare_name by lia. f_equal; [lia|f_equal; lia].
Qed.

End CoordsFacts.

(** ** The shuffle *)

(** X14.  Whatever the random draws, [shuffleArray] returns a
    permutation of its array: the same elements, each as often as
    before, and the same length; the empty array and an array of one
    element come back unchanged. *)
Theorem shuffleArray_permutes {A} rnd (array : list A) :
  shuffleArray rnd array ≡ₚ array
  /\ length (shuffleArray rnd array) = length array
  /\ (forall x, x ∈ shuffleArray rnd array <-> x ∈ array)
  /\ shuffleArray rnd (@nil A) = []
  /\ (forall x : A, shuffleArray rnd [x] = [x]).
Proof.
  pose proof (shuffleArray_Permutation rnd array) as Hp.
  split; [done|]. split; [by rewrite Hp|]. split; [|done].
  intros x. by rewrite Hp.
Qed.

(** ** Captured pieces as the history grows *)

Lemma capturesBy_app (c : Color) (h1 h2 : list Move) :
  capturesBy c (h1 ++ h2) = capturesBy c h1 ++ capturesBy c h2.
Proof. apply omap_app. Qed.

Lemma getCapturedPieces_capturesBy (h : list Move) :
  getCapturedPieces h
  = {| captured_w := capturesBy White h; captured_b := capturesBy Black h |}.
Proof. unfold getCapturedPieces. by rewrite getCapturedPieces_from. Qed.

(** X15.  The captured lists grow with the history and never shrink or
    reorder: the lists of a longer history are those of the shorter one
    followed by those of the added moves.  A move without a capture
    leaves both lists as they were, and a capture appends the piece to
    the list of the side that moved and to no other. *)
Theorem getCapturedPieces_app (h1 h2 : list Move) (m : Move) :
  (captured_w (getCapturedPieces (h1 ++ h2))
   = captured_w (getCapturedPieces h1) ++ captured_w (getCapturedPieces h2)
   /\ captured_b (getCapturedPieces (h1 ++ h2))
      = captured_b (getCapturedPieces h1) ++ captured_b (getCapturedPieces h2))
  /\ (captured m = None ->
      getCapturedPieces (h1 ++ [m]) = getCapturedPieces h1)
  /\ (forall c, captured m = Some c -> color m = White ->
        getCapturedPieces (h1 ++ [m])
        = {| captured_w := captured_w (getCapturedPieces h1) ++ [c];
             captured_b := captured_b (getCapturedPieces h1) |})
  /\ (forall c, captured m = Some c -> color m = Black ->
        getCapturedPieces (h1 ++ [m])
        = {| captured_w := captured_w (getCapturedPieces h1);
             captured_b := captured_b (getCapturedPieces h1) ++ [c] |}).
Proof.
  rewrite !getCapturedPieces_capturesBy, !capturesBy_app. simpl.
  split; [done|]. unfold capturesBy at 2 4 6 8 10 12. simpl.
  split; [|split].
  - intros ->. destruct (color m); simpl; by rewrite !app_nil_r.
  - intros c -> ->. simpl. by rewrite !app_nil_r.
  - intros c -> ->. simpl. by rewrite !app_nil_r.
Qed.

(** ** The move list and the captured pieces of the side panels *)

Module GameInfoFacts.
Import GameInfo.

Lemma movePairsFrom_pairUp (moves : list Move) :
  forall rounds k,
    (length moves <= 2 * k + 2 * rounds)%nat ->
    movePairsFrom rounds (2 * k) moves
    = pairUp rounds (Z.of_nat k) (drop (2 * k) moves).
Proof.
  induction rounds as [|rounds IH]; intros k Hlen.
  - done.
  - cbn [movePairsFrom].
    destruct (Nat.ltb_spec (2 * k) (length moves)) as [Hlt|Hge].
    + destruct (lookup_lt_is_Some_2 moves (2 * k) Hlt) as [w Hw].
      rewrite (drop_S _ _ _ Hw), Hw.
      replace (2 * k / 2)%nat with k
        by (rewrite (Nat.mul_comm 2 k), Nat.div_mul; lia).
      replace (2 * k + 2)%nat with (2 * (k + 1))%nat by lia.
      rewrite IH by lia.
      replace (Z.of_nat (k + 1)) with (Z.of_nat k + 1) by lia.
      destruct (moves !! (2 * k + 1)%nat) as [b|] eqn:Hb.
      * replace (S (2 * k)) with (2 * k + 1)%nat by lia.
        rewrite (drop_S _ _ _ Hb).
        replace (S (2 * k + 1)) with (2 * (k + 1))%nat by lia. done.
      * apply lookup_ge_None in Hb.
        rewrite (drop_ge moves (S (2 * k))) by lia.
        rewrite (drop_ge moves (2 * (k + 1))) by lia.
        simpl. by destruct rounds.
    + rewrite drop_ge by lia. done.
Qed.

Lemma movePairs_pairUp (moves : list Move) :
  movePairs moves = pairUp (length moves) 0 moves.
Proof.
  unfold movePairs.
  apply (movePairsFrom_pairUp moves (length moves) 0). lia.
Qed.

Lemma pairUp_moves rounds :
  forall k (l : list Move),
    (length l <= 2 * rounds)%nat -> movesOfPairs (pairUp rounds k l) = l.
Proof.
  induction rounds as [|rounds IH]; intros k l Hlen.
  - destruct l; [done|simpl in Hlen; lia].
  - destruct l as [|w [|b rest]]; [done|done|].
    cbn [pairUp]. unfold movesOfPairs in *. simpl.
    rewrite IH; [done|simpl in Hlen; lia].
Qed.

Lemma pairUp_length rounds :
  forall k (l : list Move),
    (length l <= 2 * rounds)%nat ->
    length (pairUp rounds k l) = ((length l + 1) / 2)%nat.
Proof.
  induction rounds as [|rounds IH]; intros k l Hlen.
  - destruct l; [done|simpl in Hlen; lia].
  - destruct l as [|w [|b rest]]; [done|done|].
    cbn [pairUp length]. rewrite IH by (simpl in Hlen; lia).
    replace (S (S (length rest)) + 1)%nat with (length rest + 1 + 1 * 2)%nat by lia.
    rewrite Nat.div_add by lia. lia.
Qed.

Lemma pairUp_lookup rounds :
  forall k (l : list Move) (j : nat) p,
    pairUp rounds k l !! j = Some p ->
    number p = k + Z.of_nat j + 1
    /\ white p = l !! (2 * j)%nat
    /\ black p = l !! (2 * j + 1)%nat
    /\ is_Some (white p).
Proof.
  induction rounds as [|rounds IH]; intros k l j p.
  - by destruct l.
  - destruct l as [|w [|b rest]]; [done| |].
    + destruct j; [|done]. intros [= <-]. simpl.
      repeat split; [lia|by eexists].
    + destruct j as [|j].
      * intros [= <-]. simpl. repeat split; [lia|by eexists].
      * intros Hp. change (pairUp rounds (k + 1) rest !! j = Some p) in Hp.
        destruct (IH _ _ _ _ Hp) as (Hn & Hw & Hb & Hs).
        replace (2 * S j)%nat with (S (S (2 * j))) by lia.
        replace (S (S (2 * j)) + 1)%nat with (S (S (2 * j + 1))) by lia.
        split; [lia|]. split; [exact Hw|]. split; [exact Hb|exact Hs].
Qed.

(** X16.  [movePairs] splits the move list into consecutive pairs
    without losing or reordering a move: reading the white and black
    entries of the pairs in order gives the list back.  There are as
    many pairs as half the number of moves, rounded up; the pair at
    index [j] is numbered [j + 1], holds the moves at indices [2 j] and
    [2 j + 1], and always has a white move. *)
Theorem movePairs_round_trip (moves : list Move) :
  movesOfPairs (movePairs moves) = moves
  /\ length (movePairs moves) = ((length moves + 1) / 2)%nat
  /\ (forall j p, movePairs moves !! j = Some p ->
        number p = Z.of_nat j + 1
        /\ white p = moves !! (2 * j)%nat
        /\ black p = moves !! (2 * j + 1)%nat
        /\ is_Some (white p)).
Proof.
  rewrite movePairs_pairUp. split; [apply pairUp_moves; lia|].
  split; [apply pairUp_length; lia|].
  intros j p Hp. destruct (pairUp_lookup _ _ _ _ _ Hp) as (Hn & ? & ? & ?).
  repeat split; [lia|done|done|done].
Qed.

#[local] Instance rankLe_trans : Transitive rankLe.
Proof. unfold rankLe. intros a b c. lia. Qed.

#[local] Instance rankLe_antisymm : AntiSymm (=) rankLe.
Proof. unfold rankLe. intros [] []; vm_compute; intros H1 H2; congruence. Qed.

Lemma insertSorted_Permutation (x : PieceSymbol) l :
  insertSorted comparePieces x l ≡ₚ x :: l.
Proof.
  induction l as [|y l IH]; simpl; [done|].
  destruct (comparePieces x y <=? 0); [done|].
  by rewrite IH, Permutation_swap.
Qed.

Lemma insertSorted_Sorted (x : PieceSymbol) l :
  Sorted rankLe l -> Sorted rankLe (insertSorted comparePieces x l).
Proof.
  induction 1 as [|y l Hl IH Hhd]; simpl; [by repeat constructor|].
  destruct (Z.leb_spec (comparePieces x y) 0) as [Hle|Hgt].
  - constructor; [by constructor|]. constructor.
    unfold rankLe, pieceRank. unfold comparePieces in Hle. lia.
  - constructor; [done|].
    assert (rankLe y x) as Hyx
      by (unfold rankLe, pieceRank; unfold comparePieces in Hgt; lia).
    destruct Hhd as [|z l Hz]; simpl; [by constructor|].
    destruct (comparePieces x z <=? 0); by constructor.
Qed.

Lemma score_from (l : list PieceSymbol) :
  forall sum, foldl (fun sum p => sum + PIECE_VALUES p) sum l
              = sum + foldr (fun p acc => PIECE_VALUES p + acc) 0 l.
Proof.
  induction l as [|p l IH]; intros sum; simpl; [lia|]. rewrite IH. lia.
Qed.

Lemma score_Permutation (l l' : list PieceSymbol) :
  l ≡ₚ l' -> score l = score l'.
Proof.
  unfold score. rewrite !score_from.
  induction 1; simpl in *; lia.
Qed.

(** X17.  [sortPieces] returns the captured pieces rearranged, none lost
    or added, in the order queen, rook, bishop, knight, pawn (a king,
    which [PIECE_ORDER] does not list, would come first).  No other
    arrangement of the same pieces is in that order, so the result does
    not depend on how the sort is carried out, and the material total of
    the sorted list is that of the list as captured: the difference the
    panel shows is the material White captured minus the material Black
    captured. *)
Theorem sortPieces_sorted (arr : list PieceSymbol) :
  sortPieces arr ≡ₚ arr
  /\ Sorted (fun a b => indexOf a PIECE_ORDER <= indexOf b PIECE_ORDER)
            (sortPieces arr)
  /\ (forall l, l ≡ₚ arr ->
        Sorted (fun a b => indexOf a PIECE_ORDER <= indexOf b PIECE_ORDER) l ->
        l = sortPieces arr)
  /\ score (sortPieces arr) = score arr
  /\ (forall pieces,
        scoreDiff pieces = score (captured_w pieces) - score (captured_b pieces)).
Proof.
  assert (sortPieces arr ≡ₚ arr) as Hperm.
  { unfold sortPieces, sort. induction arr as [|x arr IH]; simpl; [done|].
    by rewrite insertSorted_Permutation, IH. }
  assert (Sorted rankLe (sortPieces arr)) as Hsorted.
  { unfold sortPieces, sort. induction arr as [|x arr IH]; simpl; [constructor|].
    apply insertSorted_Sorted, IH.
    unfold sortPieces, sort in Hperm. simpl in Hperm.
    rewrite insertSorted_Permutation in Hperm.
    by apply Permutation_cons_inv in Hperm. }
  split; [done|]. split; [exact Hsorted|]. split.
  - intros l Hl Hs. apply (Sorted_unique rankLe); [exact Hs|exact Hsorted|].
    by rewrite Hl, Hperm.
  - split; [by apply score_Permutation|].
    intros pieces. unfold scoreDiff.
    assert (forall l, score (sortPieces l) = score l) as Hscore.
    { intros l. apply score_Permutation. unfold sortPieces, sort.
      induction l as [|x l IH]; simpl; [done|].
      by rewrite insertSorted_Permutation, IH. }
    by rewrite !Hscore.
Qed.

End GameInfoFacts.

(** ** The highlighted squares *)

Section SquaresFacts.
Context {RE : RulesEngine}.
Variable movesOfSquare : Game -> Square -> list Move.

(** X18.  The squares [getValidMoves] lists for a square are exactly the
    targets on which [makeMove] from that square, called without a
    promotion as the board does, succeeds.  A promoting pawn move counts
    because its promotion to a queen is legal as well. *)
Theorem getValidMoves_iff_makeMove
    (accepts : MoveAcceptsLegal) (rejects : MoveRejectsIllegal)
    (squares : MovesOfSquareFilter movesOfSquare)
    (a b : Square) (e : ChessEngine) :
  (forall m, m ∈ moves (game e) -> promotion m <> None ->
     exists q, q ∈ moves (game e) /\ from q = from m /\ to q = to m
               /\ promotion q = Some Queen) ->
  b ∈ getValidMoves movesOfSquare a e
  <-> exists m e', makeMove a b None e = Ok (Some m) e'.
Proof.
  intros Hqueen. unfold getValidMoves. rewrite makeMove_unfold.
  rewrite list_elem_of_In, in_map_iff. split.
  - intros (m & <- & [Hm <-]%list_elem_of_In%squares).
    assert (existsb (matchesInput (submitted (from m) (to m) None))
                    (moves (game e)) = true) as Hex.
    { apply existsb_exists.
      destruct (promotion m) as [p|] eqn:Hp.
      - destruct (Hqueen m Hm) as (q & Hq & Hf & Ht & Hpq); [by rewrite Hp|].
        exists q. split; [by apply list_elem_of_In|].
        unfold matchesInput, submitted; simpl.
        by rewrite Hf, Ht, Hpq, !String.eqb_refl.
      - exists m. split; [by apply list_elem_of_In|].
        unfold matchesInput, submitted; simpl.
        by rewrite Hp, !String.eqb_refl. }
    destruct (accepts _ _ Hex) as (m' & g' & -> & _). by eauto.
  - intros (m & e' & Hmove).
    destruct (existsb (matchesInput (submitted a b None)) (moves (game e)))
      eqn:Hex.
    + destruct (accepts _ _ Hex) as (m' & g' & Hm' & Hin & Hmatch).
      unfold matchesInput, submitted in Hmatch; simpl in Hmatch.
      apply andb_prop in Hmatch
        as [[Hf%String.eqb_eq Ht%String.eqb_eq]%andb_prop _].
      exists m'. split; [done|].
      apply list_elem_of_In, squares. by split.
    + destruct (rejects _ _ Hex) as [g' Hthrow]. by rewrite Hthrow in Hmove.
Qed.

End SquaresFacts.

(** ** A mate in one is not missed *)

Section MateInOne.
Context {RE : RulesEngine}.
Hypothesis accepts : MoveAcceptsLegal.
Hypothesis restores : UndoRestores.

Lemma better_than_win isMaximizing v :
  better isMaximizing (initialBest (negb isMaximizing)) v = false ->
  v = initialBest (negb isMaximizing).
Proof. unfold better, initialBest. by destruct isMaximizing, v. Qed.

Lemma unprunedMinimax_over depth isMaximizing (e : ChessEngine) :
  isGameOver (game e) = true ->
  unprunedMinimax depth isMaximizing e = evaluateBoard e.
Proof. intros Hover. destruct depth; simpl; by rewrite ?Hover. Qed.

(** X19.  When the side to move has a legal move that checkmates,
    [getBestMove] returns a move, and the position that move leads to
    has the winning infinite value for the mover: plus infinity after a
    White move, minus infinity after a Black one.  At the difficulty
    easy the move returned itself checkmates. *)
Theorem getBestMove_takes_mate rnd (e : ChessEngine) (m : Move) :
  m ∈ moves (game e) ->
  isCheckmate (game (after e m)) = true ->
  isGameOver (game (after e m)) = true ->
  turn (game (after e m)) = flipColor (turn (game e)) ->
  let d := getSearchDepth e in
  let mx := rootIsMaximizing e in
  exists m',
    getBestMove rnd e = Ok (Some m') e
    /\ m' ∈ moves (game e)
    /\ childValue d mx e m' = initialBest (negb mx)
    /\ (difficulty e = easy -> isCheckmate (game (after e m')) = true).
Proof using accepts restores.
  intros Hm Hmate Hover Hturn d mx.
  assert (childValue d mx e m = initialBest (negb mx)) as Hval.
  { unfold childValue. rewrite unprunedMinimax_over by done.
    unfold evaluateBoard. rewrite Hmate, Hturn.
    unfold mx, rootIsMaximizing. by destruct (turn (game e)). }
  pose proof (getBestMove_run accepts restores rnd e) as Hrun.
  destruct (getBestMove_trace accepts restores _ _ _ _ Hrun)
    as [_ [[_ Hall]|(l1 & m' & l2 & Hms & Hr & Hbetter & H1 & H2)]].
  - exfalso. rewrite Forall_forall in Hall.
    specialize (Hall m). fold d mx in Hall. rewrite Hval in Hall.
    assert (m ∈ shuffleArray rnd (moves (game e))) as Hin
      by by rewrite shuffleArray_Permutation.
    apply Hall in Hin. unfold initialBest in Hin. by destruct mx.
  - fold d mx in Hbetter, H1, H2.
    assert (forall x, x ∈ moves (game e) <-> x ∈ l1 ++ m' :: l2) as Hin.
    { intros x. by rewrite <- Hms, shuffleArray_Permutation. }
    assert (m' ∈ moves (game e)) as Hm'
      by (apply Hin, elem_of_app; right; left).
    assert (childValue d mx e m' = initialBest (negb mx)) as Hval'.
    { apply Hin in Hm. apply elem_of_app in Hm as [Hl|[->|Hr']%elem_of_cons].
      - rewrite Forall_forall in H1. apply H1 in Hl. rewrite Hval in Hl.
        apply better_irrefl_false in Hl. by apply better_than_win.
      - done.
      - rewrite Forall_forall in H2. apply H2 in Hr'. rewrite Hval in Hr'.
        by apply better_than_win. }
    exists m'. rewrite Hrun, Hr. repeat split; try done.
    intros Heasy. unfold childValue, d, getSearchDepth in Hval'.
    rewrite Heasy in Hval'. simpl in Hval'. unfold evaluateBoard in Hval'.
    destruct (isCheckmate (game (after e m'))); [done|].
    destruct (isDraw (game (after e m'))); unfold initialBest in Hval';
      by destruct mx.
Qed.

End MateInOne.

(** ** The further properties on concrete positions *)

Module MoreExamples.
Import Tree TreeMore.
#[local] Existing Instance engine.

Lemma tree_squares : MovesOfSquareFilter t_movesOfSquare.
Proof.
  intros g square m. unfold t_movesOfSquare. simpl.
  rewrite list_elem_of_In, filter_In, <- list_elem_of_In.
  by rewrite String.eqb_eq.
Qed.


Lemma getBestMove_first_of_best_witness :
  let e := engineAt easy trapKb1 in
  exists l1 l2,
    shuffleArray rnd0 (moves (game e)) = l1 ++ Rh1 :: l2
    /\ (forall m', m' ∈ l1 ->
          better (rootIsMaximizing e)
                 (childValue (getSearchDepth e) (rootIsMaximizing e) e Rh1)
                 (childValue (getSearchDepth e) (rootIsMaximizing e) e m') = true)
    /\ (forall m', m' ∈ l2 ->
          better (rootIsMaximizing e)
                 (childValue (getSearchDepth e) (rootIsMaximizing e) e m')
                 (childValue (getSearchDepth e) (rootIsMaximizing e) e Rh1) = false).
Proof.
  apply (getBestMove_first_of_best TreeFacts.tree_accepts TreeFacts.tree_restores
           rnd0 (engineAt easy trapKb1) (engineAt easy trapKb1) Rh1).
  vm_compute. reflexivity.
Defined.

Lemma getBestMove_null_iff_witness :
  let e := engineAt medium trap in
  getBestMove rnd0 e = Ok None e
  <-> (forall m, m ∈ moves (game e) ->
         childValue (getSearchDepth e) (rootIsMaximizing e) e m
         = initialBest (rootIsMaximizing e)).
Proof.
  exact (getBestMove_null_iff TreeFacts.tree_accepts TreeFacts.tree_restores
           rnd0 (engineAt medium trap)).
Defined.

Lemma getBestMove_then_makeMove_witness :
  exists m' e'',
    makeMove (from Kd1) (to Kd1) (promotion Kd1) (engineAt hard cutRoot)
    = Ok (Some m') e''
    /\ m' ∈ moves (game (engineAt hard cutRoot))
    /\ from m' = from Kd1 /\ to m' = to Kd1.
Proof.
  apply (getBestMove_then_makeMove TreeFacts.tree_accepts TreeFacts.tree_restores
           rnd0 (engineAt hard cutRoot) (engineAt hard cutRoot) Kd1).
  vm_compute. reflexivity.
Defined.

Lemma makeMove_succeeds_iff_legal_witness :
  (exists m e', makeMove "e2" "e4" None (engineAt medium start) = Ok (Some m) e')
  <-> legalTriple (game (engineAt medium start)) "e2" "e4" None = true.
Proof.
  exact (proj1 (proj2 (makeMove_succeeds_iff_legal
                         TreeFacts.tree_accepts TreeFacts.tree_rejects
                         "e2" "e4" None (engineAt medium start)))).
Defined.

Lemma makeMove_then_undoMove_witness :
  undoMove (after (engineAt medium start) e4)
  = Ok (Some e4) (engineAt medium start).
Proof.
  apply (makeMove_then_undoMove TreeFacts.tree_restores "e2" "e4" None).
  vm_compute. reflexivity.
Defined.

Lemma evaluateBoard_mirror_witness :
  evaluateBoard (engineAt medium cutAMirror)
  = negate (evaluateBoard (engineAt medium cutA)).
Proof. apply evaluateBoard_mirror; reflexivity. Defined.

Lemma getWinProbability_monotone_witness :
  white (getWinProbability (engineAt medium cutA))
  <= white (getWinProbability (engineAt medium cutLeafB2))
  /\ black (getWinProbability (engineAt medium cutLeafB2))
     <= black (getWinProbability (engineAt medium cutA)).
Proof.
  apply (getWinProbability_monotone _ _ 80 120); try reflexivity. lia.
Defined.

Lemma getWinProbability_balance_witness :
  getWinProbability (engineAt medium start) = {| white := 50; black := 50 |}.
Proof.
  apply (proj1 (getWinProbability_balance (engineAt medium start) 0
                  eq_refl eq_refl)).
  reflexivity.
Defined.

Lemma squareToCoords_coordsToSquare_witness :
  Coords.coordsToSquare 4 4 = Coords.unitsOf "e4"
  /\ Coords.squareToCoords (Coords.coordsToSquare 4 4)
     = {| Coords.row := Some 4; Coords.col := Some 4 |}.
Proof. apply CoordsFacts.squareToCoords_coordsToSquare; lia. Defined.

Lemma coordsToSquare_squareToCoords_witness :
  exists r c,
    Coords.squareToCoords [101; 52] = {| Coords.row := Some r; Coords.col := Some c |}
    /\ Coords.coordsToSquare r c = [101; 52].
Proof. apply CoordsFacts.coordsToSquare_squareToCoords; lia. Defined.

Lemma promo_queen_sibling (m : Move) :
  m ∈ moves (game (engineAt medium promo)) -> promotion m <> None ->
  exists q, q ∈ moves (game (engineAt medium promo))
            /\ from q = from m /\ to q = to m /\ promotion q = Some Queen.
Proof.
  simpl. rewrite !elem_of_cons, elem_of_nil.
  intros [->|[->|[->|[->|[->|[]]]]]] Hp; try done;
    (exists a8Q; split; [rewrite !elem_of_cons; tauto|done]).
Qed.

Lemma getValidMoves_iff_makeMove_witness :
  "a8" ∈ getValidMoves t_movesOfSquare "a7" (engineAt medium promo)
  <-> exists m e', makeMove "a7" "a8" None (engineAt medium promo) = Ok (Some m) e'.
Proof.
  exact (getValidMoves_iff_makeMove t_movesOfSquare
           TreeFacts.tree_accepts TreeFacts.tree_rejects tree_squares
           "a7" "a8" (engineAt medium promo) promo_queen_sibling).
Defined.

Lemma getBestMove_takes_mate_witness :
  let e := engineAt easy trapKb1 in
  exists m',
    getBestMove rnd0 e = Ok (Some m') e
    /\ m' ∈ moves (game e)
    /\ childValue (getSearchDepth e) (rootIsMaximizing e) e m'
       = initialBest (negb (rootIsMaximizing e))
    /\ (difficulty e = easy -> isCheckmate (game (after e m')) = true).
Proof.
  apply (getBestMove_takes_mate TreeFacts.tree_accepts TreeFacts.tree_restores
           rnd0 (engineAt easy trapKb1) Rh1); try reflexivity.
  simpl. rewrite !elem_of_cons. tauto.
Defined.

Lemma getCapturedPieces_app_witness :
  getCapturedPieces ([e4; d5] ++ [exd5])
  = {| captured_w := captured_w (getCapturedPieces [e4; d5]) ++ [Pawn];
       captured_b := captured_b (getCapturedPieces [e4; d5]) |}.
Proof.
  apply (proj1 (proj2 (proj2 (getCapturedPieces_app [e4; d5] [] exd5))));
    reflexivity.
Defined.

Lemma movePairs_round_trip_witness :
  GameInfo.number {| GameInfo.number := 2; GameInfo.white := Some exd5;
                     GameInfo.black := None |} = Z.of_nat 1 + 1
  /\ Some exd5 = [e4; d5; exd5] !! (2 * 1)%nat
  /\ None = [e4; d5; exd5] !! (2 * 1 + 1)%nat
  /\ is_Some (Some exd5).
Proof.
  apply (proj2 (proj2 (GameInfoFacts.movePairs_round_trip [e4; d5; exd5])) 1%nat).
  reflexivity.
Defined.

Lemma sortPieces_sorted_witness :
  [Queen; Rook; Pawn; Pawn] = GameInfo.sortPieces [Pawn; Queen; Pawn; Rook].
Proof.
  apply (proj1 (proj2 (proj2
           (GameInfoFacts.sortPieces_sorted [Pawn; Queen; Pawn; Rook])))).
  - etrans; [apply perm_skip, perm_swap|].
    etrans; [apply perm_skip, perm_skip, perm_swap|].
    apply perm_swap.
  - repeat constructor; vm_compute; discriminate.
Defined.

End MoreExamples.
